(** * pdf2bib: the bibliography record, the DOI scan and the driver loop

    A shallow embedding of [pdf2bib.py].  Python values are modelled as
    follows.

    - [str] is a list of Unicode code points ([N]).  Which code points above
      U+007F count as alphanumeric is decided by the interpreter's Unicode
      database, which is no part of the program: it is the parameter [alnum].
    - [bytes] is a list of [byte].
    - a [dict] is an association list in insertion order with unique keys,
      which is what [dict.items()] iterates over.
    - an exception is a value of [exn]; a call that may raise returns
      [exn + X].
    - the two compiled patterns of [BibEntry] and the one of [PDFParser] are
      values of [regex], run by a model of the backtracking matcher of the
      [re] module. *)

From Stdlib Require Import Ascii String Bool Arith NArith Lia List.
From Stdlib Require Import Strings.Byte.
Import ListNotations.

Set Implicit Arguments.

(** ** The [re] module: a backtracking matcher *)

Module Re.
Section Matcher.

Context {A : Type}.

(** [newline c] tells whether [c] is the line feed; [.] and [$] depend on
    it. *)
Variable newline : A -> bool.

(** The pattern syntax the three patterns of the program use.  A
    repetition always repeats a one-character item. *)
Inductive regex : Type :=
| Class (p : A -> bool)                 (* a literal, a set, [\w], [\d], [.] *)
| Seq (r1 r2 : regex)                   (* r1 r2 *)
| Alt (r1 r2 : regex)                   (* r1|r2 *)
| Many1 (greedy : bool) (p : A -> bool) (* p+ and p+? *)
| Times (n : nat) (p : A -> bool)       (* p{n} *)
| Group (name : string) (r : regex)     (* (?P<name>r), or (r) named by its number *)
| End.                                  (* $ *)

(** [.] without DOTALL: any character but the line feed. *)
Definition dot (c : A) : bool := negb (newline c).

(** [$] without MULTILINE: at the end of the text, or just before a line
    feed that ends the text. *)
Definition at_end (s : list A) : bool :=
  match s with
  | [] => true
  | [c] => newline c
  | _ => false
  end.

(** The text consumed between the input [s] and what remains, [rest]. *)
Definition taken (s rest : list A) : list A :=
  firstn (length s - length rest) s.

(** What remains of [s] after one or more [p], every way of stopping, in the
    order the matcher tries them: the longest run first when greedy, the
    shortest first when lazy. *)
Fixpoint many1 (greedy : bool) (p : A -> bool) (s : list A) : list (list A) :=
  match s with
  | [] => []
  | c :: s' =>
      if p c then
        if greedy then many1 greedy p s' ++ [s'] else s' :: many1 greedy p s'
      else []
  end.

(** What remains of [s] after exactly [n] characters of [p]. *)
Fixpoint times (n : nat) (p : A -> bool) (s : list A) : option (list A) :=
  match n with
  | 0 => Some s
  | S n' =>
      match s with
      | c :: s' => if p c then times n' p s' else None
      | [] => None
      end
  end.

Definition captures : Type := list (string * list A).

(** [run r s caps]: every way [r] matches a prefix of [s], as the remaining
    input and the groups captured, in the order a backtracking matcher finds
    them.  The matcher's result is the head of this list. *)
Fixpoint run (r : regex) (s : list A) (caps : captures)
  : list (list A * captures) :=
  match r with
  | Class p =>
      match s with
      | c :: s' => if p c then [(s', caps)] else []
      | [] => []
      end
  | Seq r1 r2 => flat_map (fun x => run r2 (fst x) (snd x)) (run r1 s caps)
  | Alt r1 r2 => run r1 s caps ++ run r2 s caps
  | Many1 g p => map (fun s' => (s', caps)) (many1 g p s)
  | Times n p =>
      match times n p s with
      | Some s' => [(s', caps)]
      | None => []
      end
  | Group name r1 =>
      map (fun x => (fst x, (name, taken s (fst x)) :: snd x)) (run r1 s caps)
  | End => if at_end s then [(s, caps)] else []
  end.

(** A match object: the text matched ([m.group()]) and its groups. *)
Record rmatch : Type := { m_text : list A; m_groups : captures }.

(** [m.group(name)].  Every group of the three patterns lies on the
    pattern's spine, so it takes part in every match; the empty text stands
    for a group that took no part. *)
Fixpoint lookup (name : string) (caps : captures) : list A :=
  match caps with
  | [] => []
  | (n, v) :: caps' => if String.eqb n name then v else lookup name caps'
  end.

Definition group (m : rmatch) (name : string) : list A :=
  lookup name (m_groups m).

(** A match that starts exactly at the head of [s]. *)
Definition match_at (r : regex) (s : list A) : option rmatch :=
  match run r s [] with
  | (rest, caps) :: _ => Some {| m_text := taken s rest; m_groups := caps |}
  | [] => None
  end.

(** [pattern.search(s)]: the first position, from the left, where a match
    starts; the end of the text is a position too. *)
Fixpoint search (r : regex) (s : list A) : option rmatch :=
  match match_at r s with
  | Some m => Some m
  | None =>
      match s with
      | [] => None
      | _ :: s' => search r s'
      end
  end.

(** [pattern.finditer(s)]: the matches from left to right, each search
    starting where the previous match ended.  [skip] counts the characters
    of the previous match still to step over.  (After an empty match the
    scan moves on by one character; none of the patterns here matches the
    empty text.) *)
Fixpoint scan (r : regex) (s : list A) (skip : nat) : list rmatch :=
  match skip with
  | S k =>
      match s with
      | [] => []
      | _ :: s' => scan r s' k
      end
  | 0 =>
      match match_at r s with
      | Some m =>
          m :: match s with
               | [] => []
               | _ :: s' => scan r s' (pred (length (m_text m)))
               end
      | None =>
          match s with
          | [] => []
          | _ :: s' => scan r s' 0
          end
      end
  end.

Definition finditer (r : regex) (s : list A) : list rmatch := scan r s 0.

End Matcher.
End Re.

Import Re.

Declare Scope regex_scope.
Delimit Scope regex_scope with re.
Infix ">>" := Seq (at level 61, right associativity) : regex_scope.

(** ** Text and bytes *)

Definition str : Type := list N.
Definition bytes : Type := list byte.

Definition code (c : ascii) : N := N_of_ascii c.
Arguments code : simpl never.
Definition bcode (b : byte) : N := Byte.to_N b.

Definition str_of (x : string) : str := map code (list_ascii_of_string x).
Definition bytes_of (x : string) : bytes := list_byte_of_string x.

Definition between (lo hi x : N) : bool := (lo <=? x)%N && (x <=? hi)%N.

Definition ascii_digit (x : N) : bool := between 48 57 x.
Definition ascii_word (x : N) : bool :=
  ascii_digit x || between 65 90 x || (x =? 95)%N || between 97 122 x.

(** [\w] of a [str] pattern: the alphanumeric characters and the underscore.
    Up to U+007F these are the ASCII letters and digits; above, the Unicode
    database [alnum] decides. *)
Definition is_word (alnum : N -> bool) (c : N) : bool :=
  if (c <? 128)%N then ascii_word c else alnum c.

(** The database for U+0080 to U+00FF (letters, superscript digits and
    fractions of Latin-1), cut off above; the examples run with it. *)
Definition latin1_alnum (x : N) : bool :=
  (x =? 170)%N || (x =? 178)%N || (x =? 179)%N || (x =? 181)%N
  || (x =? 185)%N || (x =? 186)%N || between 188 190 x
  || between 192 214 x || between 216 246 x || between 248 255 x.

Definition is_char (a : ascii) (c : N) : bool := (c =? code a)%N.
Definition str_newline (c : N) : bool := is_char "010" c.

(** [\w] and [\d] of a [bytes] pattern are ASCII only. *)
Definition is_byte (a : ascii) (b : byte) : bool := (bcode b =? code a)%N.
Definition bytes_newline (b : byte) : bool := is_byte "010" b.
Definition byte_digit (b : byte) : bool := ascii_digit (bcode b).
Definition byte_word (b : byte) : bool := ascii_word (bcode b).

Fixpoint str_eqb (a b : str) : bool :=
  match a, b with
  | [], [] => true
  | x :: a', y :: b' => (x =? y)%N && str_eqb a' b'
  | _, _ => false
  end.

(** [x in l] for a list of strings. *)
Definition str_in (x : str) (l : list str) : bool := existsb (str_eqb x) l.

(** [s.startswith(p)] and [p in s]. *)
Fixpoint startswith (s p : str) {struct p} : bool :=
  match p, s with
  | [], _ => true
  | x :: p', y :: s' => (x =? y)%N && startswith s' p'
  | _ :: _, [] => false
  end.

Fixpoint contains (p s : str) : bool :=
  startswith s p ||
  match s with
  | [] => false
  | _ :: s' => contains p s'
  end.

(** [s.split(sep)] for a one-character separator. *)
Fixpoint split_on (sep : ascii) (s : str) : list str :=
  match s with
  | [] => [[]]
  | c :: s' =>
      if is_char sep c then [] :: split_on sep s'
      else match split_on sep s' with
           | w :: ws => (c :: w) :: ws
           | [] => [[c]]
           end
  end.

(** [s.lstrip(c)], [s.rstrip(c)], [s.strip(c)] for one character. *)
Fixpoint lstrip (a : ascii) (s : str) : str :=
  match s with
  | c :: s' => if is_char a c then lstrip a s' else s
  | [] => []
  end.

Definition rstrip (a : ascii) (s : str) : str := rev (lstrip a (rev s)).
Definition strip (a : ascii) (s : str) : str := rstrip a (lstrip a s).

(** ** Exceptions *)

Inductive exn : Type :=
  | AttributeError          (* an attribute that the object does not have *)
  | KeyError                (* a key missing from a mapping *)
  | IndexError
  | UnicodeDecodeError
  | BareException           (* [raise Exception()] *)
  | Raised (name : string). (* raised by the environment: OSError, URLError, ... *)

Definition bind {X Y : Type} (c : exn + X) (f : X -> exn + Y) : exn + Y :=
  match c with
  | inl e => inl e
  | inr x => f x
  end.

Declare Scope exn_scope.
Delimit Scope exn_scope with exn.
Notation "x <- c ;; k" := (bind c (fun x => k))
  (at level 62, c at next level, right associativity) : exn_scope.

(** A comprehension whose element expression may raise: left to right, the
    first exception ends it. *)
Fixpoint map_exn {X Y : Type} (f : X -> exn + Y) (l : list X) : exn + list Y :=
  match l with
  | [] => inr []
  | x :: l' =>
      match f x with
      | inl e => inl e
      | inr y =>
          match map_exn f l' with
          | inl e => inl e
          | inr ys => inr (y :: ys)
          end
      end
  end.

(** ** [bytes.decode("utf-8")], strict *)

Definition continuation (x : N) : bool := between 128 191 x.

Definition decoded (cp : N) (rest : option str) : option str :=
  option_map (cons cp) rest.

Fixpoint utf8 (s : bytes) : option str :=
  match s with
  | [] => Some []
  | b0 :: s1 =>
      let x0 := bcode b0 in
      if (x0 <? 128)%N then decoded x0 (utf8 s1) else
      match s1 with
      | [] => None
      | b1 :: s2 =>
          let x1 := bcode b1 in
          if between 194 223 x0 then
            if continuation x1
            then decoded ((x0 - 192) * 64 + (x1 - 128))%N (utf8 s2)
            else None
          else
          match s2 with
          | [] => None
          | b2 :: s3 =>
              let x2 := bcode b2 in
              if between 224 239 x0 then
                if (if (x0 =? 224)%N then between 160 191 x1
                    else if (x0 =? 237)%N then between 128 159 x1
                    else continuation x1)
                   && continuation x2
                then decoded ((x0 - 224) * 4096 + (x1 - 128) * 64
                              + (x2 - 128))%N (utf8 s3)
                else None
              else
              match s3 with
              | [] => None
              | b3 :: s4 =>
                  let x3 := bcode b3 in
                  if between 240 244 x0 then
                    if (if (x0 =? 240)%N then between 144 191 x1
                        else if (x0 =? 244)%N then between 128 143 x1
                        else continuation x1)
                       && continuation x2 && continuation x3
                    then decoded ((x0 - 240) * 262144 + (x1 - 128) * 4096
                                  + (x2 - 128) * 64 + (x3 - 128))%N (utf8 s4)
                    else None
                  else None
              end
          end
      end
  end.

Definition decode_utf8 (s : bytes) : exn + str :=
  match utf8 s with
  | Some t => inr t
  | None => inl UnicodeDecodeError
  end.

(** ** Dictionaries: insertion order, unique keys *)

Definition dict : Type := list (str * str).

(** [d[k] = v]: overwrite in place, or append. *)
Fixpoint dict_set (k v : str) (d : dict) : dict :=
  match d with
  | [] => [(k, v)]
  | (k', v') :: d' =>
      if str_eqb k' k then (k, v) :: d' else (k', v') :: dict_set k v d'
  end.

Fixpoint dict_get (k : str) (d : dict) : option str :=
  match d with
  | [] => None
  | (k', v') :: d' => if str_eqb k' k then Some v' else dict_get k d'
  end.

(** ** class BibEntry *)

Module BibEntry.
Section Unicode.

Variable alnum : N -> bool.

Local Open Scope regex_scope.

Definition lit (a : ascii) : regex := Class (is_char a).

(** [[\w\-]] *)
Definition word_hyphen (c : N) : bool := is_word alnum c || is_char "-" c.
(** [[\w\- ]] *)
Definition word_hyphen_space (c : N) : bool :=
  is_word alnum c || is_char "-" c || is_char " " c.
Definition any : N -> bool := dot str_newline.

(** [@(?P<type>[\w\-]+)\{(?P<id>[\w\- ]+), (?P<args>.+)\}] *)
Definition parts : regex :=
  lit "@" >> Group "type" (Many1 true word_hyphen) >> lit "{" >>
  Group "id" (Many1 true word_hyphen_space) >> lit "," >> lit " " >>
  Group "args" (Many1 true any) >> lit "}".

(** [(?P<key>[\w\-]+)=\{(?P<value>.+?)\}(, |$)] *)
Definition keys : regex :=
  Group "key" (Many1 true word_hyphen) >> lit "=" >> lit "{" >>
  Group "value" (Many1 false any) >> lit "}" >>
  Group "3" (Alt (lit "," >> lit " ") End).

Record t : Type := { id : str; type : str; args : dict }.

(** The loop of [__init__]: one assignment per match, in order. *)
Definition store (d : dict) (m : rmatch) : dict :=
  dict_set (group m "key") (group m "value") d.

(** [BibEntry(entry)].  When [parts] finds nothing, [match] is [None] and
    [match.group('args')] raises before any attribute is set. *)
Definition init (entry : str) : exn + t :=
  match search str_newline parts entry with
  | None => inl AttributeError
  | Some m =>
      let ks := finditer str_newline keys (group m "args") in
      inr {| id := group m "id";
             type := group m "type";
             args := fold_left store ks [] |}
  end.

(** ["\n    {key}={{{value}}}"] *)
Definition field_line (kv : str * str) : str :=
  str_of (String "010" "    ") ++ fst kv ++ str_of "={" ++ snd kv ++ str_of "}".

(** ["@{type}{{{key},"] *)
Definition header (b : t) : str :=
  str_of "@" ++ type b ++ str_of "{" ++ id b ++ str_of ",".

(** [key not in exclude] *)
Definition shown (exclude : list str) (kv : str * str) : bool :=
  negb (str_in (fst kv) exclude).

(** The body of the loop of [format]. *)
Definition emit (exclude : list str) (result : str) (kv : str * str) : str :=
  if shown exclude kv then result ++ field_line kv else result.

Definition format (b : t) (exclude : list str) : str :=
  fold_left (emit exclude) (args b) (header b) ++ str_of (String "010" "}").

Definition add_arg (b : t) (key value : str) : t :=
  {| id := id b; type := type b; args := dict_set key value (args b) |}.

End Unicode.
End BibEntry.

(** ** [os.path] (POSIX) *)

Module os_path.

(** [(p[:i], p[i:])] for [i = p.rfind('/') + 1]. *)
Fixpoint cut (p : str) : str * str :=
  match p with
  | [] => ([], [])
  | c :: p' =>
      match cut p' with
      | ([], tail) => if is_char "/" c then ([c], tail) else ([], c :: tail)
      | (head, tail) => (c :: head, tail)
      end
  end.

(** [os.path.split(p)] *)
Definition split (p : str) : str * str :=
  let (head, tail) := cut p in
  match lstrip "/" head with
  | [] => (head, tail)              (* empty, or slashes only *)
  | _ :: _ => (rstrip "/" head, tail)
  end.

(** [os.path.join(a, b)] *)
Definition join (a b : str) : str :=
  if startswith b (str_of "/") then b
  else match rev a with
       | [] => b
       | c :: _ => if is_char "/" c then a ++ b else a ++ str_of "/" ++ b
       end.

(** [os.path.isabs(p)] *)
Definition isabs (p : str) : bool := startswith p (str_of "/").

End os_path.

(** ** The environment the program runs in *)

Record World : Type := {
  (** the interpreter's Unicode database above U+007F *)
  unicode_alnum : N -> bool;
  (** the variable PATH of [os.environ]; [None] when it is not set *)
  environ_PATH : option str;
  isfile : str -> bool;
  isdir : str -> bool;
  (** [os.access(p, os.X_OK)] *)
  access_x : str -> bool;
  (** [os.walk(top)]: the directories under [top] with their file names *)
  walk : str -> list (str * list str);
  (** [template.format(pdf=value)] *)
  str_format : str -> str -> exn + str;
  (** [subprocess.Popen(command, stdout=PIPE).communicate()[0]] *)
  popen : list str -> exn + bytes;
  (** [request.urlopen(Request(url, headers=...)).read()] *)
  urlopen : str -> exn + bytes
}.

(** ** class BibLookup *)

Module BibLookup.

Local Open Scope exn_scope.

(** ['http://dx.doi.org/{doi}'.format(doi=doi)] *)
Definition url (doi : str) : str := str_of "http://dx.doi.org/" ++ doi.

Definition get_bibtex (w : World) (doi : str) : exn + str :=
  body <- urlopen w (url doi) ;;
  decode_utf8 body.

End BibLookup.

(** ** class PDFParser *)

Module PDFParser.

Local Open Scope regex_scope.
Local Open Scope exn_scope.

Definition converters : list (list str) :=
  [ map str_of ["pdftotext"; "-l"; "1"; "{pdf}"; "-"]%string;
    map str_of ["pdftohtml"; "-stdout"; "-i"; "-l"; "1"; "{pdf}"]%string ].

Definition blit (a : ascii) : regex := Class (is_byte a).

(** [[\w\-\.]] *)
Definition suffix_byte (b : byte) : bool :=
  byte_word b || is_byte "-" b || is_byte "." b.

(** [10.\d{4}/[\w\-\.]+] (the point after [10] is not escaped) *)
Definition doi_regex : regex :=
  blit "1" >> blit "0" >> Class (dot bytes_newline) >> Times 4 byte_digit >>
  blit "/" >> Many1 true suffix_byte.

Definition is_exe (w : World) (fpath : str) : bool :=
  isfile w fpath && access_x w fpath.

(** The loop of [which] over the directories of the search path. *)
Fixpoint which_in (w : World) (program : str) (paths : list str) : option str :=
  match paths with
  | [] => None
  | path :: paths' =>
      let exe_file := os_path.join (strip "034" path) program in
      if is_exe w exe_file then Some exe_file else which_in w program paths'
  end.

Definition which (w : World) (program : str) : exn + option str :=
  match fst (os_path.split program) with
  | _ :: _ => inr (if is_exe w program then Some program else None)
  | [] =>
      match environ_PATH w with
      | None => inl KeyError
      | Some p => inr (which_in w program (split_on ":" p))
      end
  end.

(** The truth value of what [which] returns. *)
Definition found (location : option str) : option str :=
  match location with
  | Some (c :: l) => Some (c :: l)
  | _ => None
  end.

(** The loop of [__init__] over [converters]; the result is
    [self.converter].  (The assignment to [self.converter[0]] also changes
    the list held by the class attribute; [main] constructs one parser, from
    the tuple as written.) *)
Fixpoint init_from (w : World) (cs : list (list str)) : exn + list str :=
  match cs with
  | [] => inl BareException
  | converter :: cs' =>
      match converter with
      | [] => inl IndexError
      | program :: arguments =>
          location <- which w program ;;
          match found location with
          | Some l => inr (l :: arguments)
          | None => init_from w cs'
          end
      end
  end.

Definition init (w : World) : exn + list str := init_from w converters.

(** Lines 134 to 138 of [get_doi]: the scan of the converter's output. *)
Definition find_doi (out : bytes) : exn + option str :=
  match search bytes_newline doi_regex out with
  | Some m => doi <- decode_utf8 (m_text m) ;; inr (Some doi)
  | None => inr None
  end.

Definition get_doi (w : World) (converter : list str) (pdf_file : str)
  : exn + option str :=
  command <- map_exn (fun x => str_format w x pdf_file) converter ;;
  out <- popen w command ;;
  find_doi out.

End PDFParser.

(** ** [main] *)

(** What the run shows: lines printed and text written to [args.output];
    printing and writing are taken not to fail. *)
Inductive event : Type :=
| Print (line : str)
| Write (text : str).

(** A computation that prints and writes, and may raise: the events so far
    and the outcome. *)
Definition io (X : Type) : Type := list event * (exn + X).

Definition io_ret {X : Type} (x : X) : io X := ([], inr x).

Definition io_bind {X Y : Type} (c : io X) (f : X -> io Y) : io Y :=
  match c with
  | (t, inl e) => (t, inl e)
  | (t, inr x) => let (t', r) := f x in (t ++ t', r)
  end.

Definition lift {X : Type} (c : exn + X) : io X := ([], c).
Definition print (line : str) : io unit := ([Print line], inr tt).
Definition write (text : str) : io unit := ([Write text], inr tt).

Declare Scope io_scope.
Delimit Scope io_scope with io.
Notation "x <- c ;; k" := (io_bind c (fun x => k))
  (at level 62, c at next level, right associativity) : io_scope.
Notation "c ;; k" := (io_bind c (fun _ => k))
  (at level 62, right associativity) : io_scope.

(** A [for] loop whose body prints, writes and may raise. *)
Fixpoint for_each {X : Type} (body : X -> io unit) (l : list X) : io unit :=
  match l with
  | [] => io_ret tt
  | x :: l' => io_bind (body x) (fun _ => for_each body l')
  end.

Record Args : Type := {
  location : list str;
  (** [-e]: [None] when the option is not given *)
  exclude : option str
}.

(** [location.tolower()]: [str] has no such attribute. *)
Definition tolower (s : str) : exn + str := inl AttributeError.

(** [args.exclude.split(",")] *)
Definition exclude_split (e : option str) : exn + list str :=
  match e with
  | None => inl AttributeError
  | Some s => inr (split_on "," s)
  end.

Definition has_pdf (name : str) : bool := contains (str_of ".pdf") name.

(** [[os.path.join(path, f) for f in files if ".pdf" in f]] *)
Definition pdfs_of (entry : str * list str) : list str :=
  map (os_path.join (fst entry)) (filter has_pdf (snd entry)).

(** The first loop of [main]: gather the files to analyze. *)
Fixpoint gather (w : World) (locations : list str) (f : list str)
  : exn + list str :=
  match locations with
  | [] => inr f
  | loc :: rest =>
      (is_pdf <- (if isfile w loc
                  then (low <- tolower loc ;; inr (has_pdf low))
                  else inr false) ;;
       if is_pdf then gather w rest (f ++ [loc])
       else if isdir w loc
            then gather w rest (f ++ flat_map pdfs_of (walk w loc))
            else gather w rest f)%exn
  end.

(** The body of the second loop of [main]. *)
Definition analyze (w : World) (parser : list str) (args : Args) (file : str)
  : io unit :=
  (print (str_of "Analyzing " ++ file ++ str_of "...") ;;
   doi <- lift (PDFParser.get_doi w parser file) ;;
   match doi with
   | Some (c :: d) =>
       let doi := c :: d in
       print (str_of "  .. Found DOI: " ++ doi) ;;
       print (str_of "  .. Fetching Metadata...") ;;
       entry <- lift (BibLookup.get_bibtex w doi) ;;
       b <- lift (BibEntry.init (unicode_alnum w) entry) ;;
       let b := BibEntry.add_arg b (str_of "file") file in
       excluded <- lift (exclude_split (exclude args)) ;;
       write (BibEntry.format b excluded) ;;
       write (str_of (String "010" (String "010" ""))) ;;
       print (str_of "  .. Wrote Entry. ")
   | _ => print (str_of "  !! No DOI found!")
   end)%io.

Definition main (w : World) (args : Args) : io unit :=
  (parser <- lift (PDFParser.init w) ;;
   f <- lift (gather w (location args) []) ;;
   for_each (analyze w parser args) f)%io.

(** ** [main] on streams that can refuse a text *)

(** [print] and [write] raise when their stream does not take the text: the
    encoding of the stream lacks a character of it, the pipe is closed, the
    disk is full.  [args.output] is [sys.stdout], the stream of [print],
    unless [-o] names a file, and it is [None] when [-o] is given without a
    name. *)
Inductive stream : Type :=
| Stdout
| File.

Record Streams : Type := {
  (** [args.output] *)
  output : option stream;
  (** what [print(line)] raises, if it raises *)
  print_raises : str -> option exn;
  (** what [write(text)] raises on the stream, if it raises *)
  write_raises : stream -> str -> option exn
}.

Definition print_on (s : Streams) (line : str) : io unit :=
  match print_raises s line with
  | Some e => ([], inl e)
  | None => print line
  end.

(** [args.output.write]: the attribute is looked up before the argument of
    the call is evaluated. *)
Definition output_write (s : Streams) : exn + (str -> io unit) :=
  match output s with
  | None => inl AttributeError
  | Some st =>
      inr (fun text =>
             match write_raises s st text with
             | Some e => ([], inl e)
             | None => write text
             end)
  end.

(** The body of the second loop of [main], on these streams. *)
Definition analyze_on (s : Streams) (w : World) (parser : list str)
    (args : Args) (file : str) : io unit :=
  (print_on s (str_of "Analyzing " ++ file ++ str_of "...") ;;
   doi <- lift (PDFParser.get_doi w parser file) ;;
   match doi with
   | Some (c :: d) =>
       let doi := c :: d in
       print_on s (str_of "  .. Found DOI: " ++ doi) ;;
       print_on s (str_of "  .. Fetching Metadata...") ;;
       entry <- lift (BibLookup.get_bibtex w doi) ;;
       b <- lift (BibEntry.init (unicode_alnum w) entry) ;;
       let b := BibEntry.add_arg b (str_of "file") file in
       write_record <- lift (output_write s) ;;
       excluded <- lift (exclude_split (exclude args)) ;;
       write_record (BibEntry.format b excluded) ;;
       write_blank <- lift (output_write s) ;;
       write_blank (str_of (String "010" (String "010" ""))) ;;
       print_on s (str_of "  .. Wrote Entry. ")
   | _ => print_on s (str_of "  !! No DOI found!")
   end)%io.

Definition main_on (s : Streams) (w : World) (args : Args) : io unit :=
  (parser <- lift (PDFParser.init w) ;;
   f <- lift (gather w (location args) []) ;;
   for_each (analyze_on s w parser args) f)%io.

(** ** Vocabulary of the statements *)

(** The next character, if any, is not in [p]: a run of [p] cannot go on. *)
Definition stops {A : Type} (p : A -> bool) (rest : list A) : Prop :=
  match rest with
  | [] => True
  | c :: _ => p c = false
  end.

(** [m] occurs in [s] as a substring with the property [P]. *)
Definition occurs {A : Type} (P : list A -> Prop) (s : list A) : Prop :=
  exists pre m post, s = pre ++ m ++ post /\ P m.

(** The outer grammar of a record, [@<type>{<key>, <args>}]: what [parts]
    accepts, read as a set of texts. *)
Definition outer_record (alnum : N -> bool) (m : str) : Prop :=
  exists T K body,
    m = str_of "@" ++ T ++ str_of "{" ++ K ++ str_of ", " ++ body ++ str_of "}"
    /\ T <> [] /\ forallb (BibEntry.word_hyphen alnum) T = true
    /\ K <> [] /\ forallb (BibEntry.word_hyphen_space alnum) K = true
    /\ body <> [] /\ forallb BibEntry.any body = true.

(** The text of a record on one line:
    [@<type>{<key>, <field>={<value>}, <field>={<value>}, ...}]. *)
Definition field_text (kv : str * str) : str :=
  fst kv ++ str_of "={" ++ snd kv ++ str_of "}".

Fixpoint fields_text (fs : list (str * str)) : str :=
  match fs with
  | [] => []
  | kv :: fs' =>
      match fs' with
      | [] => field_text kv
      | _ :: _ => field_text kv ++ str_of ", " ++ fields_text fs'
      end
  end.

Definition record_text (T K : str) (fs : list (str * str)) : str :=
  str_of "@" ++ T ++ str_of "{" ++ K ++ str_of ", " ++ fields_text fs
  ++ str_of "}".

(** The dictionary built by assigning the fields in order. *)
Definition dict_of (fs : list (str * str)) : dict :=
  fold_left (fun d kv => dict_set (fst kv) (snd kv) d) fs [].

(** A field name: one or more word or hyphen characters. *)
Definition field_name (alnum : N -> bool) (k : str) : Prop :=
  k <> [] /\ forallb (BibEntry.word_hyphen alnum) k = true.

(** A value on one line in which no closing brace after the first character
    is followed by a comma and a space. *)
Definition one_line_value (v : str) : Prop :=
  v <> [] /\ forallb BibEntry.any v = true
  /\ contains (str_of "}, ") (tl v) = false.

(** The DOI token of the specification: the literal prefix [10.], exactly
    four digits, a slash, then one or more word, hyphen or dot characters. *)
Definition doi_shape (t : bytes) : bool :=
  match t with
  | b1 :: b0 :: point :: t' =>
      is_byte "1" b1 && is_byte "0" b0 && is_byte "." point &&
      match times 4 byte_digit t' with
      | Some (slash :: c :: suffix) =>
          is_byte "/" slash && forallb PDFParser.suffix_byte (c :: suffix)
      | _ => false
      end
  | _ => false
  end.

(** What [doi_regex] accepts: [1], [0], any byte but the line feed, four
    digits, a slash, then one or more word, hyphen or dot characters. *)
Definition doi_token (t : bytes) : Prop :=
  exists x digits suffix,
    t = bytes_of "10" ++ x :: digits ++ bytes_of "/" ++ suffix
    /\ bytes_newline x = false
    /\ length digits = 4 /\ forallb byte_digit digits = true
    /\ suffix <> [] /\ forallb PDFParser.suffix_byte suffix = true.

(** What follows a value: [\}(, |$)]. *)
Definition closing : regex :=
  (BibEntry.lit "}"
   >> Group "3" (Alt (BibEntry.lit "," >> BibEntry.lit " ") End))%re.

(** The fields of a record text are well formed. *)
Definition fields_ok (alnum : N -> bool) (fs : list (str * str)) : Prop :=
  forall k v, In (k, v) fs -> field_name alnum k /\ one_line_value v.

(** A path gathered from a directory argument. *)
Definition walked (w : World) (locs : list str) (f : str) : Prop :=
  exists top dir names name,
    In top locs /\ isdir w top = true /\ In (dir, names) (walk w top)
    /\ In name names /\ has_pdf name = true /\ f = os_path.join dir name.

(** The directories of the search path, in order, quotes stripped. *)
Definition search_dirs (p : str) : list str :=
  map (strip "034") (split_on ":" p).

(** ** Sample data *)

Definition sample_entry : str :=
  str_of "@article{smith2020, title={A Study}, year={2020}}".

Definition sample_record : BibEntry.t :=
  {| BibEntry.id := str_of "smith2020";
     BibEntry.type := str_of "article";
     BibEntry.args := [(str_of "title", str_of "A Study");
                       (str_of "year", str_of "2020")] |}.

Definition nested_fields : list (str * str) :=
  [(str_of "title", str_of "A {B} C"); (str_of "year", str_of "2020")].

(** A value on two lines, and a value with [}, ] inside. *)
Definition two_line_entry : str :=
  str_of ("@article{k, title={A" ++ String "010" "Study}}").
Definition comma_entry : str := str_of "@article{k, title={A {B}, C}}".

(** A first page with a byte that is not UTF-8 where the point should be, and
    one with a letter there. *)
Definition undecodable_page : bytes :=
  bytes_of "10" ++ [xff] ++ bytes_of "1234/a".
Definition letter_page : bytes := bytes_of "10X1234/abc".

(** [str.format] on a template without braces other than [{pdf}]. *)
Definition plain_format (template pdf : str) : exn + str :=
  inr (if str_eqb template (str_of "{pdf}") then pdf else template).

Definition sample_reply : bytes :=
  bytes_of "@article{smith2020, title={A Study}, year={2020}}".

(** A machine with both converters in [/usr/bin], a directory [lib] holding
    [a.pdf] (with a DOI on its first page), [notes.txt] and [b.pdf] (with
    another DOI), and a file [paper.pdf]; [service] is the lookup service. *)
Definition sample_world (service : str -> exn + bytes) : World :=
  {| unicode_alnum := latin1_alnum;
     environ_PATH := Some (str_of "/usr/local/bin:/usr/bin");
     isfile := fun p => str_in p [str_of "/usr/bin/pdftotext";
                                  str_of "/usr/bin/pdftohtml";
                                  str_of "paper.pdf"];
     isdir := fun p => str_eqb p (str_of "lib");
     access_x := fun p => str_in p [str_of "/usr/bin/pdftotext";
                                    str_of "/usr/bin/pdftohtml"];
     walk := fun top =>
       if str_eqb top (str_of "lib")
       then [(str_of "lib", [str_of "a.pdf"; str_of "notes.txt"; str_of "b.pdf"])]
       else [];
     str_format := plain_format;
     popen := fun command =>
       if str_in (str_of "lib/a.pdf") command
       then inr (bytes_of "see doi:10.1000/xyz123 and 10.2000/abc")
       else if str_in (str_of "lib/b.pdf") command
       then inr (bytes_of "10.3000/other")
       else inr [];
     urlopen := service |}.

(** The service is down, and the service answers. *)
Definition service_down (url : str) : exn + bytes := inl (Raised "URLError").
Definition service_up (url : str) : exn + bytes := inr sample_reply.

(** A machine whose search path is the relative directory [bin]. *)
Definition relative_world : World :=
  {| unicode_alnum := latin1_alnum;
     environ_PATH := Some (str_of "bin");
     isfile := fun p => str_eqb p (str_of "bin/pdftotext");
     isdir := fun _ => false;
     access_x := fun p => str_eqb p (str_of "bin/pdftotext");
     walk := fun _ => [];
     str_format := plain_format;
     popen := fun _ => inr [];
     urlopen := service_down |}.

(** The sample record formatted without its year. *)
Definition sample_formatted : str :=
  str_of ("@article{smith2020," ++ String "010" "    title={A Study}"
          ++ String "010" "}")%string.

Definition sample_args : Args :=
  {| location := [str_of "lib"]; exclude := Some (str_of "url") |}.
Definition sample_args_no_exclude : Args :=
  {| location := [str_of "lib"]; exclude := None |}.
Definition sample_args_file : Args :=
  {| location := [str_of "lib"; str_of "paper.pdf"];
     exclude := Some (str_of "url") |}.

Definition sample_parser : list str :=
  map str_of ["/usr/bin/pdftotext"; "-l"; "1"; "{pdf}"; "-"]%string.

(** What is printed for [lib/a.pdf] up to the lookup. *)
Definition sample_progress : list event :=
  [Print (str_of "Analyzing lib/a.pdf...");
   Print (str_of "  .. Found DOI: 10.1000/xyz123");
   Print (str_of "  .. Fetching Metadata...")].

(** ** Vocabulary of the further properties *)

(** The texts written to [args.output], in order. *)
Fixpoint writes (t : list event) : list str :=
  match t with
  | [] => []
  | Write text :: t' => text :: writes t'
  | Print _ :: t' => writes t'
  end.



(** [sep.join(pieces)] for a one-character separator. *)
Fixpoint join_with (sep : ascii) (pieces : list str) : str :=
  match pieces with
  | [] => []
  | p :: ps =>
      match ps with
      | [] => p
      | _ :: _ => p ++ code sep :: join_with sep ps
      end
  end.

(** The value of the last field named [k] in [fs]. *)
Definition last_binding (k : str) (fs : list (str * str)) : option str :=
  option_map snd (find (fun kv => str_eqb (fst kv) k) (rev fs)).

(** Bytes below 80 (hexadecimal) only. *)
Definition ascii_only (s : bytes) : bool :=
  forallb (fun b => (bcode b <? 128)%N) s.

(** What the first loop of [main] takes from one location that is no
    regular file. *)
Definition pdfs_under (w : World) (loc : str) : list str :=
  if isdir w loc then flat_map pdfs_of (walk w loc) else [].

(** The two lines printed for a file without a DOI. *)
Definition no_doi_lines (file : str) : list event :=
  [Print (str_of "Analyzing " ++ file ++ str_of "...");
   Print (str_of "  !! No DOI found!")].

(** An entry with the field [year] twice. *)
Definition twice_fields : list (str * str) :=
  [(str_of "year", str_of "2019"); (str_of "title", str_of "A Study");
   (str_of "year", str_of "2020")].

(** The first page of [lib/a.pdf] in the sample. *)
Definition sample_page : bytes :=
  bytes_of "see doi:10.1000/xyz123 and 10.2000/abc".

(** A machine without the variable PATH, and one with an empty directory on
    the search path. *)
Definition no_path_world : World :=
  {| unicode_alnum := latin1_alnum;
     environ_PATH := None;
     isfile := fun _ => true;
     isdir := fun _ => false;
     access_x := fun _ => true;
     walk := fun _ => [];
     str_format := plain_format;
     popen := fun _ => inr [];
     urlopen := service_down |}.

Definition bare_world : World :=
  {| unicode_alnum := latin1_alnum;
     environ_PATH := Some (str_of "/opt/empty");
     isfile := fun _ => false;
     isdir := fun p => str_eqb p (str_of "docs");
     access_x := fun _ => false;
     walk := fun top =>
       if str_eqb top (str_of "docs")
       then [(str_of "docs", [str_of "x.pdf"]);
             (str_of "docs/old", [str_of "y.pdf.bak"; str_of "z.PDF"])]
       else [];
     str_format := plain_format;
     popen := fun _ => inr (bytes_of "no identifier here");
     urlopen := service_down |}.

(** No item of the pattern accepts the character [c], and the pattern has
    no [$]: a match cannot run over [c]. *)
Fixpoint rejects {A : Type} (r : @regex A) (c : A) : Prop :=
  match r with
  | Class p => p c = false
  | Seq r1 r2 => rejects r1 c /\ rejects r2 c
  | Alt r1 r2 => rejects r1 c /\ rejects r2 c
  | Many1 _ p => p c = false
  | Times _ p => p c = false
  | Group _ r1 => rejects r1 c
  | End => False
  end.

(** A reply that ends with a line feed. *)
Definition sample_entry_line : str := sample_entry ++ [code "010"].

(** A machine with [pdftotext] in [/usr/bin] and a directory [docs] whose
    two documents have no DOI on their first page. *)
Definition plain_world : World :=
  {| unicode_alnum := latin1_alnum;
     environ_PATH := Some (str_of "/usr/bin");
     isfile := fun p => str_eqb p (str_of "/usr/bin/pdftotext");
     isdir := fun p => str_eqb p (str_of "docs");
     access_x := fun p => str_eqb p (str_of "/usr/bin/pdftotext");
     walk := fun top =>
       if str_eqb top (str_of "docs")
       then [(str_of "docs", [str_of "x.pdf"; str_of "y.pdf"])]
       else [];
     str_format := plain_format;
     popen := fun _ => inr (bytes_of "no identifier here");
     urlopen := service_down |}.

Definition plain_args : Args :=
  {| location := [str_of "docs"]; exclude := None |}.

(** Every line printed in [t] is one that [print] takes. *)
Definition prints_all (s : Streams) (t : list event) : Prop :=
  forall line, In (Print line) t -> print_raises s line = None.

(** A standard output that encodes ASCII only, with the records sent to a
    file. *)
Definition ascii_stdout : Streams :=
  {| output := Some File;
     print_raises := fun line =>
       if forallb (fun c => (c <? 128)%N) line then None
       else Some (Raised "UnicodeEncodeError");
     write_raises := fun _ _ => None |}.

(** [-o] without a name. *)
Definition no_output : Streams :=
  {| output := None;
     print_raises := fun _ => None;
     write_raises := fun _ _ => None |}.

(** * Properties *)

Unset Implicit Arguments.

(** ** The matcher *)

Section MatcherFacts.

Context {A : Type}.
Variable newline : A -> bool.

Lemma taken_app (w rest : list A) : taken (w ++ rest) rest = w.
Proof.
  unfold taken. rewrite length_app.
  replace (length w + length rest - length rest) with (length w) by lia.
  rewrite firstn_app, firstn_all, Nat.sub_diag. simpl. apply app_nil_r.
Qed.

Lemma taken_self (s : list A) : taken s s = [].
Proof. apply (taken_app [] s). Qed.

Lemma many1_in (g : bool) (p : A -> bool) (s rest : list A) :
  In rest (many1 g p s) <->
  exists w, w <> [] /\ forallb p w = true /\ s = w ++ rest.
Proof.
  revert rest. induction s as [|c s IH]; intros rest; simpl.
  - split; [intros []|]. intros (w & Hw & _ & E).
    destruct w; [congruence | discriminate].
  - destruct (p c) eqn:Hc.
    + assert (In rest (many1 g p s) \/ rest = s <->
              exists w, w <> [] /\ forallb p w = true /\ c :: s = w ++ rest) as H.
      { split.
        - intros [H | ->].
          + apply IH in H as (w & Hw & Hp & ->).
            exists (c :: w). simpl. rewrite Hc, Hp. repeat split; congruence.
          + exists [c]. simpl. rewrite Hc. repeat split; congruence.
        - intros (w & Hw & Hp & E). destruct w as [|c' w]; [congruence|].
          simpl in E, Hp. injection E as -> ->.
          apply andb_prop in Hp as [_ Hp].
          destruct w as [|c'' w]; [now right|].
          left. apply IH. exists (c'' :: w). repeat split; congruence. }
      destruct g; simpl; rewrite <- H.
      * rewrite in_app_iff. simpl. intuition congruence.
      * intuition congruence.
    + split; [intros []|]. intros (w & Hw & Hp & E).
      destruct w as [|c' w]; [congruence|].
      simpl in E, Hp. injection E as -> ->. rewrite Hc in Hp. discriminate.
Qed.

Lemma many1_stops (g : bool) (p : A -> bool) (rest : list A) :
  stops p rest -> many1 g p rest = [].
Proof. destruct rest; simpl; [reflexivity|]. now intros ->. Qed.

(** Greedy: the longest run is tried first. *)
Lemma many1_greedy_longest (p : A -> bool) (w rest : list A) :
  w <> [] -> forallb p w = true -> stops p rest ->
  exists tl, many1 true p (w ++ rest) = rest :: tl.
Proof.
  induction w as [|c w IH]; [congruence|]. intros _ Hp Hs.
  simpl in Hp. apply andb_prop in Hp as [Hc Hp]. simpl. rewrite Hc.
  destruct w as [|c' w].
  - simpl. rewrite many1_stops by assumption. now exists [].
  - destruct IH as [tl E]; [congruence | assumption | assumption |].
    rewrite E. now exists (tl ++ [(c' :: w) ++ rest]).
Qed.

(** Greedy, up to the end of the text: everything first, then all but the
    last character. *)
Lemma many1_greedy_to_end (p : A -> bool) (w : list A) (c : A) :
  w <> [] -> forallb p (w ++ [c]) = true ->
  exists tl, many1 true p (w ++ [c]) = [] :: [c] :: tl.
Proof.
  induction w as [|x w IH]; [congruence|]. intros _ Hp.
  simpl in Hp. apply andb_prop in Hp as [Hx Hp]. simpl. rewrite Hx.
  destruct w as [|y w].
  - simpl in *. apply andb_prop in Hp as [Hc _]. rewrite Hc. now exists [].
  - destruct IH as [tl E]; [congruence | assumption |].
    rewrite E. now exists (tl ++ [(y :: w) ++ [c]]).
Qed.

(** Lazy: the shortest run on which what follows succeeds is the first
    success. *)
Lemma many1_lazy_first {X : Type} (f : list A -> list X) (p : A -> bool)
      (w rest : list A) :
  w <> [] -> forallb p w = true ->
  (forall w1 w2, w = w1 ++ w2 -> w1 <> [] -> w2 <> [] -> f (w2 ++ rest) = []) ->
  exists tl, flat_map f (many1 false p (w ++ rest)) = f rest ++ tl.
Proof.
  induction w as [|c w IH]; [congruence|]. intros _ Hp Hf.
  simpl in Hp. apply andb_prop in Hp as [Hc Hp]. simpl. rewrite Hc. simpl.
  destruct w as [|c' w].
  - simpl. eauto.
  - rewrite (Hf [c] (c' :: w)) by (reflexivity || congruence). simpl.
    apply IH; [congruence | assumption |].
    intros w1 w2 E H1 H2. apply (Hf (c :: w1) w2); [|congruence|assumption].
    simpl. now rewrite E.
Qed.

Lemma times_in (n : nat) (p : A -> bool) (s rest : list A) :
  times n p s = Some rest <->
  exists w, length w = n /\ forallb p w = true /\ s = w ++ rest.
Proof.
  revert s. induction n as [|n IH]; intros s; simpl.
  - split.
    + intros [= ->]. now exists [].
    + intros (w & Hl & _ & ->). destruct w; [reflexivity | discriminate].
  - destruct s as [|c s].
    + split; [discriminate|]. intros (w & Hl & _ & E).
      destruct w; discriminate.
    + destruct (p c) eqn:Hc.
      * rewrite IH. split.
        -- intros (w & Hl & Hp & ->). exists (c :: w). simpl.
           rewrite Hc, Hp, Hl. auto.
        -- intros (w & Hl & Hp & E). destruct w as [|c' w]; [discriminate|].
           simpl in *. injection E as -> ->. apply andb_prop in Hp as [_ Hp].
           exists w. auto.
      * split; [discriminate|]. intros (w & Hl & Hp & E).
        destruct w as [|c' w]; [discriminate|].
        simpl in *. injection E as -> ->. rewrite Hc in Hp. discriminate.
Qed.

(** What the results of [run] are, one pattern form at a time. *)

Lemma run_Class_in (p : A -> bool) s caps rest caps' :
  In (rest, caps') (run newline (Class p) s caps) <->
  exists c, s = c :: rest /\ p c = true /\ caps' = caps.
Proof.
  simpl. destruct s as [|c s].
  - split; [intros []|]. intros (c & E & _). discriminate.
  - destruct (p c) eqn:Hc; simpl.
    + split.
      * intros [[= <- <-] | []]. eauto.
      * intros (c' & [= -> ->] & _ & ->). now left.
    + split; [intros []|]. intros (c' & [= -> ->] & Hp & _). congruence.
Qed.

Lemma run_Seq_in (r1 r2 : regex) s caps x :
  In x (run newline (Seq r1 r2) s caps) <->
  exists s1 c1, In (s1, c1) (run newline r1 s caps)
                /\ In x (run newline r2 s1 c1).
Proof.
  simpl. rewrite in_flat_map. split.
  - intros ([s1 c1] & H1 & H2). eauto.
  - intros (s1 & c1 & H1 & H2). exists (s1, c1). auto.
Qed.

Lemma run_Alt_in (r1 r2 : regex) s caps x :
  In x (run newline (Alt r1 r2) s caps) <->
  In x (run newline r1 s caps) \/ In x (run newline r2 s caps).
Proof. simpl. apply in_app_iff. Qed.

Lemma run_Many1_in g (p : A -> bool) s caps rest caps' :
  In (rest, caps') (run newline (Many1 g p) s caps) <->
  caps' = caps /\ exists w, w <> [] /\ forallb p w = true /\ s = w ++ rest.
Proof.
  simpl. rewrite in_map_iff. split.
  - intros (s' & [= <- <-] & H). split; [reflexivity|]. now apply many1_in in H.
  - intros (-> & H). exists rest. split; [reflexivity|]. now apply many1_in.
Qed.

Lemma run_Times_in n (p : A -> bool) s caps rest caps' :
  In (rest, caps') (run newline (Times n p) s caps) <->
  caps' = caps /\ exists w, length w = n /\ forallb p w = true /\ s = w ++ rest.
Proof.
  simpl. rewrite <- times_in. destruct (times n p s) as [s'|]; simpl.
  - split.
    + intros [[= <- <-] | []]. auto.
    + intros (-> & [= ->]). now left.
  - split; [intros []|]. intros (_ & [=]).
Qed.

Lemma run_Group_in name (r : regex) s caps rest caps' :
  In (rest, caps') (run newline (Group name r) s caps) <->
  exists c1, In (rest, c1) (run newline r s caps)
             /\ caps' = (name, taken s rest) :: c1.
Proof.
  simpl. rewrite in_map_iff. split.
  - intros ([s1 c1] & [= <- <-] & H). eauto.
  - intros (c1 & H & ->). exists (rest, c1). auto.
Qed.

Lemma run_End_in s caps rest caps' :
  In (rest, caps') (run newline End s caps) <->
  rest = s /\ caps' = caps /\ at_end newline s = true.
Proof.
  simpl. destruct (at_end newline s); simpl.
  - split.
    + intros [[= <- <-] | []]. auto.
    + intros (-> & -> & _). now left.
  - split; [intros []|]. intros (_ & _ & [=]).
Qed.

(** [search] and [finditer] *)

Lemma match_at_run (r : regex) s :
  match_at newline r s =
  match run newline r s [] with
  | x :: _ => Some {| m_text := taken s (fst x); m_groups := snd x |}
  | [] => None
  end.
Proof. unfold match_at. now destruct (run newline r s []) as [|[rest caps] l]. Qed.

Lemma match_at_none (r : regex) s :
  match_at newline r s = None <-> run newline r s [] = [].
Proof.
  rewrite match_at_run. destruct (run newline r s []); split; congruence.
Qed.

Lemma search_here (r : regex) s m :
  match_at newline r s = Some m -> search newline r s = Some m.
Proof. intros H. destruct s; simpl; now rewrite H. Qed.

Lemma search_none (r : regex) s :
  search newline r s = None <->
  forall pre s', s = pre ++ s' -> match_at newline r s' = None.
Proof.
  induction s as [|c s IH]; simpl.
  - destruct (match_at newline r []) eqn:E.
    + split; [discriminate|]. intros H. now rewrite (H [] []) in E.
    + split; [|reflexivity]. intros _ pre s' H.
      symmetry in H. apply app_eq_nil in H as [-> ->]. assumption.
  - destruct (match_at newline r (c :: s)) eqn:E.
    + split; [discriminate|]. intros H. now rewrite (H [] (c :: s)) in E.
    + rewrite IH. split.
      * intros H pre s' E'. destruct pre as [|x pre].
        -- simpl in E'. now subst s'.
        -- injection E' as -> E'. eauto.
      * intros H pre s' ->. apply (H (c :: pre)). reflexivity.
Qed.

Lemma search_some (r : regex) s m :
  search newline r s = Some m ->
  exists pre s', s = pre ++ s' /\ match_at newline r s' = Some m.
Proof.
  induction s as [|c s IH]; simpl.
  - destruct (match_at newline r []) eqn:E; [|discriminate].
    intros [= ->]. now exists [], [].
  - destruct (match_at newline r (c :: s)) eqn:E.
    + intros [= ->]. now exists [], (c :: s).
    + intros H. apply IH in H as (pre & s' & -> & H).
      now exists (c :: pre), s'.
Qed.

(** [search] finds the leftmost position where a match starts. *)
Lemma search_leftmost (r : regex) s m :
  search newline r s = Some m ->
  exists pre s',
    s = pre ++ s' /\ match_at newline r s' = Some m
    /\ forall pre1 s1, s = pre1 ++ s1 -> length pre1 < length pre ->
                       match_at newline r s1 = None.
Proof.
  induction s as [|c s IH]; simpl.
  - destruct (match_at newline r []) eqn:E; [|discriminate].
    intros [= ->]. exists [], []. repeat split; [assumption|].
    simpl. intros; lia.
  - destruct (match_at newline r (c :: s)) eqn:E.
    + intros [= ->]. exists [], (c :: s). repeat split; [assumption|].
      simpl. intros; lia.
    + intros H. apply IH in H as (pre & s' & -> & H & Hleft).
      exists (c :: pre), s'. repeat split; [assumption|].
      intros pre1 s1 E1 Hlen. destruct pre1 as [|x pre1].
      * simpl in E1. now subst s1.
      * injection E1 as -> E1. apply (Hleft pre1 s1 E1). simpl in Hlen. lia.
Qed.

Lemma many1_nil_stops (p : A -> bool) (s : list A) :
  many1 true p s = [] -> stops p s.
Proof.
  destruct s as [|c s]; simpl; [trivial|]. destruct (p c); [|reflexivity].
  intros H. now apply app_eq_nil in H as [_ H].
Qed.

(** Greedy: the first way of stopping leaves nothing of the run behind. *)
Lemma many1_greedy_hd (p : A -> bool) (s rest : list A) tl :
  many1 true p s = rest :: tl -> stops p rest.
Proof.
  revert rest tl. induction s as [|c s IH]; intros rest tl; simpl.
  - discriminate.
  - destruct (p c); [|discriminate].
    destruct (many1 true p s) as [|r' tl'] eqn:E; simpl.
    + intros [= <- <-]. now apply many1_nil_stops.
    + intros [= <- <-]. eapply IH. reflexivity.
Qed.

Lemma scan_skip (r : regex) (w s : list A) :
  scan newline r (w ++ s) (length w) = scan newline r s 0.
Proof. induction w; simpl; [reflexivity | assumption]. Qed.

(** A match at the head of the text is the first match, and the scan goes on
    after it. *)
Lemma finditer_cons (r : regex) (w s : list A) m :
  w <> [] -> match_at newline r (w ++ s) = Some m -> m_text m = w ->
  finditer newline r (w ++ s) = m :: finditer newline r s.
Proof.
  intros Hw Hm Ht. unfold finditer.
  destruct w as [|c w]; [congruence|].
  simpl scan. simpl app in Hm. rewrite Hm, Ht. simpl. now rewrite scan_skip.
Qed.

Lemma scan_in (r : regex) s skip m :
  In m (scan newline r s skip) ->
  exists s', match_at newline r s' = Some m.
Proof.
  revert skip. induction s as [|c s IH]; intros skip H.
  - destruct skip; simpl in H; [|destruct H].
    destruct (match_at newline r []) eqn:E; [|destruct H].
    destruct H as [<- | []]. eauto.
  - destruct skip; simpl in H; [|eauto].
    destruct (match_at newline r (c :: s)) eqn:E; [|eauto].
    destruct H as [<- | H]; eauto.
Qed.

(** A one-character item and a counted repetition have one way to match. *)
Lemma run_Class_seq (p : A -> bool) (r : regex) s caps :
  run newline (Seq (Class p) r) s caps =
  match s with
  | c :: s' => if p c then run newline r s' caps else []
  | [] => []
  end.
Proof.
  simpl. destruct s as [|c s]; [reflexivity|].
  destruct (p c); simpl; [apply app_nil_r | reflexivity].
Qed.

Lemma run_Times_seq n (p : A -> bool) (r : regex) s caps :
  run newline (Seq (Times n p) r) s caps =
  match times n p s with
  | Some s' => run newline r s' caps
  | None => []
  end.
Proof.
  simpl. destruct (times n p s); simpl; [apply app_nil_r | reflexivity].
Qed.

Lemma flat_map_map {X Y Z : Type} (f : Y -> list Z) (g : X -> Y) (l : list X) :
  flat_map f (map g l) = flat_map (fun x => f (g x)) l.
Proof. induction l; simpl; congruence. Qed.

End MatcherFacts.

(** ** Text *)

Lemma str_eqb_eq (a b : str) : str_eqb a b = true <-> a = b.
Proof.
  revert b. induction a as [|x a IH]; intros [|y b]; simpl;
    try (split; congruence).
  rewrite andb_true_iff, N.eqb_eq, IH. split.
  - intros [-> ->]. reflexivity.
  - intros [= -> ->]. auto.
Qed.

Lemma str_eqb_refl (a : str) : str_eqb a a = true.
Proof. now apply str_eqb_eq. Qed.

Lemma str_in_In (x : str) (l : list str) : str_in x l = true <-> In x l.
Proof.
  unfold str_in. rewrite existsb_exists. split.
  - intros (y & Hy & E). apply str_eqb_eq in E. now subst.
  - intros H. exists x. split; [assumption | apply str_eqb_refl].
Qed.

Lemma startswith_app (p b : str) : startswith (p ++ b) p = true.
Proof. induction p; simpl; [reflexivity|]. now rewrite N.eqb_refl. Qed.

Lemma contains_here (p s : str) : startswith s p = true -> contains p s = true.
Proof. destruct s; simpl; now intros ->. Qed.

Lemma contains_infix (p a b : str) : contains p (a ++ p ++ b) = true.
Proof.
  induction a as [|x a IH]; simpl.
  - apply contains_here, startswith_app.
  - rewrite IH. apply orb_true_r.
Qed.

Lemma no_close_after_first (v : str) :
  contains (str_of "}, ") (tl v) = false ->
  forall a b, v = a ++ str_of "}, " ++ b -> a = [].
Proof.
  intros H a b ->. destruct a as [|x a]; [reflexivity|].
  change (tl ((x :: a) ++ str_of "}, " ++ b)) with (a ++ str_of "}, " ++ b) in H.
  now rewrite contains_infix in H.
Qed.

(** ** Dictionaries *)

Lemma dict_set_keys k v (d : dict) k' :
  In k' (map fst (dict_set k v d)) -> k' = k \/ In k' (map fst d).
Proof.
  induction d as [|[k0 v0] d IH]; simpl.
  - intuition.
  - destruct (str_eqb k0 k) eqn:E; simpl.
    + apply str_eqb_eq in E. subst. intuition.
    + intuition.
Qed.

Lemma str_eqb_neq (a b : str) : str_eqb a b = false -> a <> b.
Proof. intros H E. apply str_eqb_eq in E. congruence. Qed.

(** Assignment keeps each key once. *)
Lemma dict_set_NoDup k v (d : dict) :
  NoDup (map fst d) -> NoDup (map fst (dict_set k v d)).
Proof.
  induction d as [|[k0 v0] d IH]; simpl; intros H.
  - repeat constructor. intros [].
  - inversion H as [|? ? Hk0 Hd]; subst.
    destruct (str_eqb k0 k) eqn:E; simpl.
    + apply str_eqb_eq in E. subst. now constructor.
    + constructor; [|auto]. intros Hin.
      apply dict_set_keys in Hin as [-> | Hin]; [|contradiction].
      apply str_eqb_neq in E. congruence.
Qed.

(** ** [BibEntry.format] *)

Lemma fold_emit (E : list str) (l : dict) (acc : str) :
  fold_left (BibEntry.emit E) l acc =
  acc ++ concat (map BibEntry.field_line (filter (BibEntry.shown E) l)).
Proof.
  revert acc. induction l as [|kv l IH]; intros acc; simpl.
  - now rewrite app_nil_r.
  - rewrite IH. unfold BibEntry.emit, BibEntry.shown.
    destruct (negb (str_in (fst kv) E)); simpl.
    + now rewrite <- app_assoc.
    + reflexivity.
Qed.

Lemma filter_key_absent (k : str) (l : dict) :
  ~ In k (map fst l) -> filter (fun kv => str_eqb (fst kv) k) l = [].
Proof.
  induction l as [|[k' v'] l IH]; simpl; [reflexivity|]. intros H.
  destruct (str_eqb k' k) eqn:E.
  - apply str_eqb_eq in E. tauto.
  - apply IH. tauto.
Qed.

Lemma filter_key_shown (E : list str) (k v : str) (l : dict) :
  NoDup (map fst l) -> dict_get k l = Some v -> ~ In k E ->
  filter (fun kv => str_eqb (fst kv) k) (filter (BibEntry.shown E) l)
  = [(k, v)].
Proof.
  induction l as [|[k' v'] l IH]; simpl; [discriminate|].
  intros Hnd Hget HE. inversion Hnd as [|? ? Hk' Hnd']; subst.
  destruct (str_eqb k' k) eqn:Ek.
  - apply str_eqb_eq in Ek. subst k'. injection Hget as ->.
    unfold BibEntry.shown at 1. simpl.
    destruct (str_in k E) eqn:Ein; [apply str_in_In in Ein; tauto|].
    simpl. rewrite str_eqb_refl. f_equal.
    apply filter_key_absent. intros H. apply Hk'.
    apply in_map_iff in H as (kv & Hf & Hin).
    apply filter_In in Hin as [Hin _]. apply in_map_iff. eauto.
  - destruct (BibEntry.shown E (k', v')); simpl; [rewrite Ek|]; now apply IH.
Qed.

(** C4.  For every record [b] (a dictionary has each key once) and every
    exclusion list [E], [format b E] is the header [@type{key,], then one
    line, a line feed, four spaces, [key={value}], for each field of [b]
    whose name is not in [E], in the dictionary's order, then the closing
    line; no line is emitted for a name in [E], and exactly one for each
    field name of [b] that is not in [E]. *)
Theorem format_field_lines (b : BibEntry.t) (E : list str) :
  NoDup (map fst (BibEntry.args b)) ->
  let lines := filter (BibEntry.shown E) (BibEntry.args b) in
  BibEntry.format b E =
    str_of "@" ++ BibEntry.type b ++ str_of "{" ++ BibEntry.id b ++ str_of ","
    ++ concat (map (fun kv => str_of (String "010" "    ") ++ fst kv
                              ++ str_of "={" ++ snd kv ++ str_of "}") lines)
    ++ str_of (String "010" "}")
  /\ (forall k, In k E -> ~ In k (map fst lines))
  /\ (forall k v, dict_get k (BibEntry.args b) = Some v -> ~ In k E ->
        filter (fun kv => str_eqb (fst kv) k) lines = [(k, v)]).
Proof.
  intros Hnd lines. repeat split.
  - unfold BibEntry.format. rewrite fold_emit. unfold BibEntry.header.
    fold lines. now rewrite <- !app_assoc.
  - intros k Hk H. apply in_map_iff in H as (kv & <- & Hin).
    apply filter_In in Hin as [_ Hs]. unfold BibEntry.shown in Hs.
    apply str_in_In in Hk. rewrite Hk in Hs. discriminate.
  - intros k v Hget HE. now apply filter_key_shown.
Qed.

(** ** [BibEntry.parts] and [BibEntry.keys] *)

Section Patterns.

Variable alnum : N -> bool.

Local Abbreviation parts := (BibEntry.parts alnum).
Local Abbreviation keys := (BibEntry.keys alnum).
Local Abbreviation word_hyphen := (BibEntry.word_hyphen alnum).
Local Abbreviation word_hyphen_space := (BibEntry.word_hyphen_space alnum).
Local Abbreviation any := BibEntry.any.
Local Abbreviation run := (Re.run str_newline).
Local Abbreviation fields_ok := (fields_ok alnum).

Lemma is_char_eq (a : ascii) (c : N) : is_char a c = true <-> c = code a.
Proof. apply N.eqb_eq. Qed.

Lemma run_lit_in (a : ascii) s caps rest caps' :
  In (rest, caps') (run (BibEntry.lit a) s caps) <->
  s = code a :: rest /\ caps' = caps.
Proof.
  unfold BibEntry.lit. rewrite run_Class_in. split.
  - intros (c & -> & Hc & ->). apply is_char_eq in Hc. now subst.
  - intros (-> & ->). exists (code a). repeat split. now apply is_char_eq.
Qed.

(** Every match of [parts] is an outer record, with its three groups. *)
Lemma parts_in s rest caps :
  In (rest, caps) (run parts s []) ->
  exists T K body,
    s = str_of "@" ++ T ++ str_of "{" ++ K ++ str_of ", " ++ body
        ++ str_of "}" ++ rest
    /\ T <> [] /\ forallb word_hyphen T = true
    /\ K <> [] /\ forallb word_hyphen_space K = true
    /\ body <> [] /\ forallb any body = true
    /\ caps = [("args"%string, body); ("id"%string, K); ("type"%string, T)].
Proof.
  unfold BibEntry.parts. intros H.
  apply run_Seq_in in H as (s1 & c1 & H1 & H).
  apply run_lit_in in H1 as (-> & ->).
  apply run_Seq_in in H as (s2 & c2 & H2 & H).
  apply run_Group_in in H2 as (c & H2 & ->).
  apply run_Many1_in in H2 as (-> & T & HT & HpT & ->).
  rewrite taken_app in H.
  apply run_Seq_in in H as (s3 & c3 & H3 & H).
  apply run_lit_in in H3 as (-> & ->).
  apply run_Seq_in in H as (s4 & c4 & H4 & H).
  apply run_Group_in in H4 as (c & H4 & ->).
  apply run_Many1_in in H4 as (-> & K & HK & HpK & ->).
  rewrite taken_app in H.
  apply run_Seq_in in H as (s5 & c5 & H5 & H).
  apply run_lit_in in H5 as (-> & ->).
  apply run_Seq_in in H as (s6 & c6 & H6 & H).
  apply run_lit_in in H6 as (-> & ->).
  apply run_Seq_in in H as (s7 & c7 & H7 & H).
  apply run_Group_in in H7 as (c & H7 & ->).
  apply run_Many1_in in H7 as (-> & body & Hb & Hpb & ->).
  rewrite taken_app in H.
  apply run_lit_in in H as (-> & ->).
  exists T, K, body. simpl. rewrite <- ?app_assoc. simpl.
  repeat split; assumption.
Qed.

(** Every match of [keys] is a field, closed by [}] and then by a comma and
    a space, or by the end of the text. *)
Lemma keys_in s rest caps :
  In (rest, caps) (run keys s []) ->
  exists k v sep,
    s = k ++ str_of "={" ++ v ++ str_of "}" ++ sep ++ rest
    /\ k <> [] /\ forallb word_hyphen k = true
    /\ v <> [] /\ forallb any v = true
    /\ (sep = str_of ", " \/ sep = [] /\ at_end str_newline rest = true)
    /\ caps = [("3"%string, sep); ("value"%string, v); ("key"%string, k)].
Proof.
  unfold BibEntry.keys. intros H.
  apply run_Seq_in in H as (s1 & c1 & H1 & H).
  apply run_Group_in in H1 as (c & H1 & ->).
  apply run_Many1_in in H1 as (-> & k & Hk & Hpk & ->).
  rewrite taken_app in H.
  apply run_Seq_in in H as (s2 & c2 & H2 & H).
  apply run_lit_in in H2 as (-> & ->).
  apply run_Seq_in in H as (s3 & c3 & H3 & H).
  apply run_lit_in in H3 as (-> & ->).
  apply run_Seq_in in H as (s4 & c4 & H4 & H).
  apply run_Group_in in H4 as (c & H4 & ->).
  apply run_Many1_in in H4 as (-> & v & Hv & Hpv & ->).
  rewrite taken_app in H.
  apply run_Seq_in in H as (s5 & c5 & H5 & H).
  apply run_lit_in in H5 as (-> & ->).
  apply run_Group_in in H as (c & H & ->).
  apply run_Alt_in in H as [H | H].
  - apply run_Seq_in in H as (s6 & c6 & H6 & H).
    apply run_lit_in in H6 as (-> & ->).
    apply run_lit_in in H as (-> & ->).
    exists k, v, (str_of ", "). simpl. rewrite <- ?app_assoc. simpl.
    change (taken (code "," :: code " " :: rest) rest)
      with (taken (str_of ", " ++ rest) rest).
    rewrite taken_app. repeat split; auto.
  - apply run_End_in in H as (-> & -> & He).
    exists k, v, []. simpl. rewrite <- ?app_assoc. simpl.
    rewrite taken_self. repeat split; auto.
Qed.

(** [keys] never matches the empty text, so [finditer] always moves on by a
    whole match. *)
Lemma keys_match_nonempty s m :
  match_at str_newline keys s = Some m -> m_text m <> [].
Proof.
  rewrite match_at_run.
  destruct (run keys s []) as [|[rest caps] l] eqn:Hr; [discriminate|].
  intros [= <-]. simpl.
  assert (In (rest, caps) (run keys s [])) as Hin by (rewrite Hr; now left).
  apply keys_in in Hin as (k & v & sep & -> & Hk & _).
  rewrite !app_assoc, taken_app. destruct k; [congruence | discriminate].
Qed.

(** Conversely, [parts] matches at the head of every outer record, so the
    parse succeeds on every text in which one occurs. *)
Lemma parts_at_outer_record m post :
  outer_record alnum m -> run parts (m ++ post) [] <> [].
Proof.
  intros (T & K & body & -> & HT & HpT & HK & HpK & Hb & Hpb) E.
  assert (In (post, [("args"%string, body); ("id"%string, K);
                     ("type"%string, T)])
             (run parts
                ((str_of "@" ++ T ++ str_of "{" ++ K ++ str_of ", " ++ body
                  ++ str_of "}") ++ post) [])) as Hin;
    [|rewrite E in Hin; destruct Hin].
  set (s3 := body ++ code "}" :: post).
  set (s2 := K ++ code "," :: code " " :: s3).
  set (s1 := T ++ code "{" :: s2).
  replace ((str_of "@" ++ T ++ str_of "{" ++ K ++ str_of ", " ++ body
            ++ str_of "}") ++ post) with (code "@" :: s1)
    by (unfold s1, s2, s3;
        repeat (progress (rewrite <- ?app_assoc; simpl)); reflexivity).
  unfold BibEntry.parts.
  apply run_Seq_in. exists s1, []. split; [now apply run_lit_in|].
  apply run_Seq_in. exists (code "{" :: s2), [("type"%string, T)]. split.
  { apply run_Group_in. exists []. unfold s1. rewrite taken_app.
    split; [|reflexivity]. apply run_Many1_in. split; [reflexivity|].
    exists T. auto. }
  apply run_Seq_in. exists s2, [("type"%string, T)].
  split; [now apply run_lit_in|].
  apply run_Seq_in.
  exists (code "," :: code " " :: s3), [("id"%string, K); ("type"%string, T)].
  split.
  { apply run_Group_in. exists [("type"%string, T)]. unfold s2.
    rewrite taken_app. split; [|reflexivity].
    apply run_Many1_in. split; [reflexivity|]. exists K. auto. }
  apply run_Seq_in.
  exists (code " " :: s3), [("id"%string, K); ("type"%string, T)].
  split; [now apply run_lit_in|].
  apply run_Seq_in. exists s3, [("id"%string, K); ("type"%string, T)].
  split; [now apply run_lit_in|].
  apply run_Seq_in.
  exists (code "}" :: post),
    [("args"%string, body); ("id"%string, K); ("type"%string, T)].
  split; [|now apply run_lit_in].
  apply run_Group_in. exists [("id"%string, K); ("type"%string, T)].
  unfold s3. rewrite taken_app. split; [|reflexivity].
  apply run_Many1_in. split; [reflexivity|]. exists body. auto.
Qed.

Lemma init_accepts_records (entry : str) :
  occurs (outer_record alnum) entry ->
  exists b, BibEntry.init alnum entry = inr b.
Proof.
  intros (pre & m & post & -> & Hm). unfold BibEntry.init.
  destruct (search str_newline parts (pre ++ m ++ post)) as [x|] eqn:Hs;
    [eauto|].
  exfalso. rewrite search_none in Hs.
  specialize (Hs pre (m ++ post) eq_refl). apply match_at_none in Hs.
  revert Hs. now apply parts_at_outer_record.
Qed.


(** How the matcher runs on a text whose shape is known. *)

Local Open Scope regex_scope.

Lemma run_lit_seq (a : ascii) (r : regex) s caps :
  run (BibEntry.lit a >> r) (code a :: s) caps = run r s caps.
Proof.
  simpl. unfold is_char. rewrite N.eqb_refl. simpl. apply app_nil_r.
Qed.

Lemma run_group_greedy_seq name (p : N -> bool) (r : regex) w rest caps y tl :
  w <> [] -> forallb p w = true -> stops p rest ->
  run r rest ((name, w) :: caps) = y :: tl ->
  exists tl', run (Group name (Many1 true p) >> r) (w ++ rest) caps = y :: tl'.
Proof.
  intros Hw Hp Hs Hr.
  destruct (many1_greedy_longest p w rest Hw Hp Hs) as [l E].
  simpl. rewrite E. simpl. rewrite taken_app, Hr. simpl. eauto.
Qed.

Lemma any_rbrace : any (code "}") = true.
Proof. reflexivity. Qed.

Lemma run_args_to_end body caps :
  body <> [] -> forallb any body = true ->
  exists tl,
    run (Group "args" (Many1 true any) >> BibEntry.lit "}")
        (body ++ str_of "}") caps
    = ([], ("args"%string, body) :: caps) :: tl.
Proof.
  intros Hb Hp.
  destruct (many1_greedy_to_end any body (code "}") Hb) as [l E].
  { rewrite forallb_app, Hp. reflexivity. }
  change (str_of "}") with [code "}"].
  simpl. rewrite E. simpl. rewrite taken_app. eauto.
Qed.

Lemma closing_in s caps x :
  In x (run closing s caps) ->
  exists s2, s = code "}" :: s2
             /\ ((exists r, s2 = code "," :: code " " :: r)
                 \/ at_end str_newline s2 = true).
Proof.
  unfold closing. destruct x as [rest caps']. intros H.
  apply run_Seq_in in H as (s1 & c1 & H1 & H).
  apply run_lit_in in H1 as (-> & ->).
  exists s1. split; [reflexivity|].
  apply run_Group_in in H as (c & H & ->).
  apply run_Alt_in in H as [H | H].
  - apply run_Seq_in in H as (s2 & c2 & H2 & H).
    apply run_lit_in in H2 as (-> & ->).
    apply run_lit_in in H as (-> & ->). left. eauto.
  - apply run_End_in in H as (_ & _ & He). now right.
Qed.

Lemma code_inj (a b : ascii) : code a = code b -> a = b.
Proof.
  unfold code. intros H.
  rewrite <- (ascii_N_embedding a), <- (ascii_N_embedding b). now f_equal.
Qed.

(** Inside a one-line value nothing closes the field early. *)
Lemma closing_not_inside v w1 w2 rest caps :
  one_line_value v -> v = w1 ++ w2 -> w1 <> [] -> w2 <> [] ->
  run closing (w2 ++ str_of "}" ++ rest) caps = [].
Proof.
  intros (_ & _ & Hclose) E H1 H2.
  pose proof (no_close_after_first v Hclose) as Hv.
  destruct (run closing (w2 ++ str_of "}" ++ rest) caps) as [|x l] eqn:Hr;
    [reflexivity|].
  exfalso.
  assert (In x (run closing (w2 ++ str_of "}" ++ rest) caps)) as Hin
      by (rewrite Hr; now left).
  apply closing_in in Hin as (s2 & Es & Hs2).
  destruct w2 as [|x0 w2]; [congruence|].
  simpl in Es. injection Es as -> <-.
  destruct Hs2 as [(r & Er) | He].
  - destruct w2 as [|c1 [|c2 w2]]; simpl in Er.
    + discriminate Er.
    + discriminate Er.
    + injection Er as -> -> _. apply H1, (Hv w1 w2). exact E.
  - destruct w2 as [|c1 w2]; simpl in He.
    + destruct rest; discriminate.
    + destruct (w2 ++ code "}" :: rest) eqn:Ew; [|discriminate].
      destruct w2; discriminate.
Qed.

(** The lazy value of a field takes the whole one-line value. *)
Lemma run_value_lazy v rest caps :
  one_line_value v ->
  exists tl,
    run (Group "value" (Many1 false any) >> closing)
        (v ++ str_of "}" ++ rest) caps
    = run closing (str_of "}" ++ rest) (("value"%string, v) :: caps) ++ tl.
Proof.
  intros Hv.
  set (s := v ++ str_of "}" ++ rest).
  set (F := fun s' => run closing s' (("value"%string, taken s s') :: caps)).
  assert (run (Group "value" (Many1 false any) >> closing) s caps
          = flat_map F (many1 false any s)) as ->.
  { simpl. now rewrite !flat_map_map. }
  destruct (many1_lazy_first F any v (str_of "}" ++ rest)) as [tl E].
  - apply Hv.
  - apply Hv.
  - intros w1 w2 Ev H1 H2. unfold F. now apply closing_not_inside with v w1.
  - exists tl. fold s in E. rewrite E. unfold F, s. now rewrite taken_app.
Qed.

Lemma run_closing_last caps :
  run closing (str_of "}") caps = [([], ("3"%string, []) :: caps)].
Proof. reflexivity. Qed.

Lemma run_closing_more rest caps :
  run closing (str_of "}, " ++ rest) caps
  = [(rest, ("3"%string, str_of ", ") :: caps)].
Proof.
  unfold closing. change (str_of "}, " ++ rest)
    with (code "}" :: code "," :: code " " :: rest).
  rewrite run_lit_seq.
  change (run (Group "3" (Alt (BibEntry.lit "," >> BibEntry.lit " ") End))
            (code "," :: code " " :: rest) caps)
    with (map (fun x => (fst x, ("3"%string,
                 taken (str_of ", " ++ rest) (fst x)) :: snd x))
            (run (BibEntry.lit "," >> BibEntry.lit " ")
                 (code "," :: code " " :: rest) caps
             ++ run End (code "," :: code " " :: rest) caps)).
  rewrite run_lit_seq.
  change (run (BibEntry.lit " ") (code " " :: rest) caps) with [(rest, caps)].
  pose proof (taken_app (str_of ", ") rest) as Ht. simpl in Ht |- *.
  now rewrite Ht.
Qed.

Lemma word_hyphen_equals : word_hyphen (code "=") = false.
Proof. reflexivity. Qed.

Lemma word_hyphen_lbrace : word_hyphen (code "{") = false.
Proof. reflexivity. Qed.

Lemma word_hyphen_space_comma : word_hyphen_space (code ",") = false.
Proof. reflexivity. Qed.

(** [keys] at the head of a field. *)
Lemma keys_at_field k v (more : option str) :
  field_name alnum k -> one_line_value v ->
  let sep := match more with Some _ => str_of ", " | None => [] end in
  let rest := match more with Some r => r | None => [] end in
  match_at str_newline keys (field_text (k, v) ++ sep ++ rest)
  = Some {| m_text := field_text (k, v) ++ sep;
            m_groups := [("3"%string, sep); ("value"%string, v);
                         ("key"%string, k)] |}.
Proof.
  intros [Hk Hpk] Hv sep rest.
  assert (exists tl,
    run keys (field_text (k, v) ++ sep ++ rest) []
    = (rest, [("3"%string, sep); ("value"%string, v); ("key"%string, k)])
        :: tl) as [tl E].
  { unfold field_text. simpl fst. simpl snd. rewrite <- !app_assoc.
    destruct (run_value_lazy v (sep ++ rest) [("key"%string, k)] Hv)
      as [tl Hl].
    assert (run closing (str_of "}" ++ sep ++ rest)
              [("value"%string, v); ("key"%string, k)]
            = [(rest, [("3"%string, sep); ("value"%string, v);
                       ("key"%string, k)])]) as Hc.
    { destruct more as [r|]; subst sep rest.
      - apply run_closing_more.
      - apply run_closing_last. }
    rewrite Hc in Hl.
    unfold BibEntry.keys.
    eapply run_group_greedy_seq; try eassumption.
    - exact word_hyphen_equals.
    - change (str_of "={" ++ v ++ str_of "}" ++ sep ++ rest)
        with (code "=" :: code "{" :: v ++ str_of "}" ++ sep ++ rest).
      rewrite !run_lit_seq. exact Hl. }
  rewrite match_at_run, E. simpl fst. simpl snd. do 2 f_equal.
  rewrite app_assoc. apply taken_app.
Qed.

Lemma hd_group_greedy_seq name (p : N -> bool) (r : regex) w rest caps y :
  w <> [] -> forallb p w = true -> stops p rest ->
  hd_error (run r rest ((name, w) :: caps)) = Some y ->
  hd_error (run (Group name (Many1 true p) >> r) (w ++ rest) caps) = Some y.
Proof.
  intros Hw Hp Hs Hr.
  destruct (run r rest ((name, w) :: caps)) as [|y' tl] eqn:E; [discriminate|].
  injection Hr as ->.
  destruct (run_group_greedy_seq name p r w rest caps y tl Hw Hp Hs E)
    as [tl' ->].
  reflexivity.
Qed.

Lemma match_at_hd (r : regex) s rest caps :
  hd_error (run r s []) = Some (rest, caps) ->
  match_at str_newline r s
  = Some {| m_text := taken s rest; m_groups := caps |}.
Proof.
  intros H. rewrite match_at_run.
  destruct (run r s []) as [|x l]; [discriminate|]. now injection H as ->.
Qed.

(** [parts] at the head of a record that ends the text. *)
Lemma parts_at_line T K body :
  T <> [] -> forallb word_hyphen T = true ->
  K <> [] -> forallb word_hyphen_space K = true ->
  body <> [] -> forallb any body = true ->
  let text := str_of "@" ++ T ++ str_of "{" ++ K ++ str_of ", " ++ body
              ++ str_of "}" in
  match_at str_newline parts text
  = Some {| m_text := text;
            m_groups := [("args"%string, body); ("id"%string, K);
                         ("type"%string, T)] |}.
Proof.
  intros HT HpT HK HpK Hb Hpb text.
  rewrite (match_at_hd parts text []
             [("args"%string, body); ("id"%string, K); ("type"%string, T)]).
  - do 2 f_equal. pose proof (taken_app text []) as Ht.
    now rewrite app_nil_r in Ht.
  - subst text. unfold BibEntry.parts.
    change (str_of "@" ++ T ++ str_of "{" ++ K ++ str_of ", " ++ body
            ++ str_of "}")
      with (code "@" :: T ++ code "{" :: K ++ code "," :: code " "
            :: body ++ str_of "}").
    rewrite run_lit_seq.
    apply hd_group_greedy_seq;
      [assumption | assumption | exact word_hyphen_lbrace |].
    rewrite run_lit_seq.
    apply hd_group_greedy_seq;
      [assumption | assumption | exact word_hyphen_space_comma |].
    rewrite !run_lit_seq.
    destruct (run_args_to_end body [("id"%string, K); ("type"%string, T)]
                Hb Hpb) as [tl ->].
    reflexivity.
Qed.

Lemma word_hyphen_any (c : N) : word_hyphen c = true -> any c = true.
Proof.
  unfold BibEntry.any, dot, str_newline, is_char.
  destruct (N.eqb_spec c (code "010")) as [-> | _]; [|reflexivity].
  intros H. exfalso. revert H. now vm_compute.
Qed.

Lemma forallb_impl {X : Type} (p q : X -> bool) (l : list X) :
  (forall x, p x = true -> q x = true) ->
  forallb p l = true -> forallb q l = true.
Proof.
  intros H. induction l as [|x l IH]; simpl; [reflexivity|].
  rewrite !andb_true_iff. intros [Hx Hl]. auto.
Qed.

Lemma field_text_any k v :
  field_name alnum k -> one_line_value v ->
  forallb any (field_text (k, v)) = true.
Proof.
  intros [_ Hk] (_ & Hv & _). unfold field_text. simpl fst. simpl snd.
  rewrite !forallb_app, Hv, (forallb_impl _ _ _ word_hyphen_any Hk).
  reflexivity.
Qed.

Lemma fields_text_any fs :
  fields_ok fs -> forallb any (fields_text fs) = true.
Proof.
  induction fs as [|[k v] fs IH]; intros H; [reflexivity|].
  assert (fields_ok fs) as H' by (intros k' v' Hin; apply H; now right).
  destruct (H k v (or_introl eq_refl)) as [Hk Hv].
  destruct fs as [|kv fs].
  - now apply field_text_any.
  - change (fields_text ((k, v) :: kv :: fs))
      with (field_text (k, v) ++ str_of ", " ++ fields_text (kv :: fs)).
    rewrite !forallb_app, field_text_any, IH by assumption. reflexivity.
Qed.

Lemma fields_text_nonempty fs :
  fields_ok fs -> fs <> [] -> fields_text fs <> [].
Proof.
  destruct fs as [|[k v] fs]; [congruence|]. intros H _.
  destruct (H k v (or_introl eq_refl)) as [[Hk _] _].
  simpl. destruct k; [congruence|]. destruct fs; discriminate.
Qed.

(** [finditer] over the fields of a record text: one match per field, in
    order, and the loop of [__init__] stores each. *)
Lemma store_fields fs (d : dict) :
  fields_ok fs ->
  fold_left BibEntry.store (finditer str_newline keys (fields_text fs)) d
  = fold_left (fun d kv => dict_set (fst kv) (snd kv) d) fs d.
Proof.
  revert d. induction fs as [|[k v] fs IH]; intros d H; [reflexivity|].
  assert (fields_ok fs) as H' by (intros k' v' Hin; apply H; now right).
  destruct (H k v (or_introl eq_refl)) as [Hk Hv].
  assert (field_text (k, v) <> []) as Hne.
  { destruct Hk as [Hk _]. unfold field_text. simpl. now destruct k. }
  destruct fs as [|kv fs].
  - change (fields_text [(k, v)]) with (field_text (k, v)).
    pose proof (keys_at_field k v None Hk Hv) as Hm. simpl in Hm.
    rewrite app_nil_r in Hm.
    rewrite <- (app_nil_r (field_text (k, v))).
    erewrite finditer_cons;
      [| exact Hne | rewrite app_nil_r; exact Hm | reflexivity].
    reflexivity.
  - change (fields_text ((k, v) :: kv :: fs))
      with (field_text (k, v) ++ str_of ", " ++ fields_text (kv :: fs)).
    pose proof (keys_at_field k v (Some (fields_text (kv :: fs))) Hk Hv) as Hm.
    cbv zeta in Hm. rewrite app_assoc in Hm |- *.
    erewrite finditer_cons; [| | exact Hm | reflexivity].
    + simpl fold_left. rewrite IH by assumption. reflexivity.
    + intros E. apply app_eq_nil in E as [E _]. contradiction.
Qed.

(** C5, as the code has it.  Every record on one line,
    [@<type>{<key>, <f1>={<v1>}, ..., <fn>={<vn>}}] with [n >= 1], parses:
    [<type>] and the field names are one or more word or hyphen characters,
    [<key>] may contain spaces too, and each value is non-empty, has no line
    feed, and has no [}, ] after its first character.  Values with nested
    braces are among them.  The record has that type, that key, and each
    field's full value, assigned in order. *)
Theorem init_one_line_record (T K : str) (fs : list (str * str)) :
  field_name alnum T ->
  K <> [] -> forallb word_hyphen_space K = true ->
  fs <> [] -> fields_ok fs ->
  BibEntry.init alnum (record_text T K fs)
  = inr {| BibEntry.id := K; BibEntry.type := T;
           BibEntry.args := dict_of fs |}.
Proof.
  intros [HT HpT] HK HpK Hfs Hok.
  pose proof (parts_at_line T K (fields_text fs) HT HpT HK HpK
                (fields_text_nonempty fs Hok Hfs) (fields_text_any fs Hok))
    as Hm.
  cbv zeta in Hm. unfold BibEntry.init, record_text.
  rewrite (search_here _ _ _ _ Hm).
  unfold group. simpl m_groups. simpl lookup.
  now rewrite store_fields.
Qed.

(** What a successful parse yields. *)

Lemma match_at_in (r : regex) s m :
  match_at str_newline r s = Some m ->
  exists rest, In (rest, m_groups m) (run r s []) /\ m_text m = taken s rest.
Proof.
  rewrite match_at_run. destruct (run r s []) as [|[rest caps] l]; [discriminate|].
  intros [= <-]. exists rest. simpl. auto.
Qed.

Lemma store_keys (P : str -> Prop) ks (d : dict) :
  (forall m, In m ks -> P (group m "key")) ->
  (forall k, In k (map fst d) -> P k) ->
  forall k, In k (map fst (fold_left BibEntry.store ks d)) -> P k.
Proof.
  revert d. induction ks as [|m ks IH]; intros d Hks Hd; simpl; [exact Hd|].
  apply IH.
  - intros m' Hm'. apply Hks. now right.
  - intros k Hk. unfold BibEntry.store in Hk.
    apply dict_set_keys in Hk as [-> | Hk]; [apply Hks; now left | auto].
Qed.

(** The records the program builds have each field name once. *)
Lemma init_NoDup entry b :
  BibEntry.init alnum entry = inr b -> NoDup (map fst (BibEntry.args b)).
Proof.
  unfold BibEntry.init.
  destruct (search str_newline parts entry) as [m|]; [|discriminate].
  intros [= <-]. simpl.
  generalize (finditer str_newline keys (group m "args")).
  assert (NoDup (map fst (@nil (str * str)))) as H by constructor.
  revert H. generalize (@nil (str * str)).
  intros d Hd ks. revert d Hd. induction ks as [|x ks IH]; intros d Hd; simpl.
  - exact Hd.
  - apply IH. now apply dict_set_NoDup.
Qed.

Lemma add_arg_NoDup (b : BibEntry.t) key value :
  NoDup (map fst (BibEntry.args b)) ->
  NoDup (map fst (BibEntry.args (BibEntry.add_arg b key value))).
Proof. apply dict_set_NoDup. Qed.

Lemma init_parsed entry b :
  BibEntry.init alnum entry = inr b ->
  field_name alnum (BibEntry.type b)
  /\ BibEntry.id b <> []
  /\ forallb word_hyphen_space (BibEntry.id b) = true
  /\ forall k, In k (map fst (BibEntry.args b)) -> field_name alnum k.
Proof.
  unfold BibEntry.init.
  destruct (search str_newline parts entry) as [m|] eqn:Hs; [|discriminate].
  intros [= <-]. simpl.
  apply search_some in Hs as (pre & s' & _ & Hm).
  apply match_at_in in Hm as (rest & Hin & _).
  apply parts_in in Hin
    as (T & K & body & _ & HT & HpT & HK & HpK & _ & _ & Hc).
  unfold group. rewrite Hc. simpl lookup.
  split; [now split|]. split; [assumption|]. split; [assumption|].
  apply (store_keys (field_name alnum)); [|intros k []].
  intros m' Hm'. apply scan_in in Hm' as (s2 & Hm').
  apply match_at_in in Hm' as (rest' & Hin' & _).
  apply keys_in in Hin' as (k & v & sep & _ & Hk & Hpk & _ & _ & _ & Hc').
  unfold group. rewrite Hc'. simpl lookup. now split.
Qed.

(** The text [format] produces, nothing excluded. *)

Lemma filter_shown_nil (l : dict) : filter (BibEntry.shown []) l = l.
Proof. induction l; simpl; congruence. Qed.

Lemma format_all (b : BibEntry.t) :
  BibEntry.format b []
  = code "@" :: BibEntry.type b ++ code "{" :: BibEntry.id b ++ code ","
    :: concat (map BibEntry.field_line (BibEntry.args b))
    ++ str_of (String "010" "}").
Proof.
  unfold BibEntry.format. rewrite fold_emit, filter_shown_nil.
  unfold BibEntry.header. now rewrite <- !app_assoc.
Qed.

Lemma lines_start (l : dict) :
  exists t, concat (map BibEntry.field_line l) ++ str_of (String "010" "}")
            = code "010" :: t.
Proof.
  destruct l as [|kv l]; [eexists; reflexivity|].
  simpl. unfold BibEntry.field_line at 1. simpl. eauto.
Qed.

Lemma forallb_not_in {X : Type} (p : X -> bool) (l : list X) (c : X) :
  forallb p l = true -> p c = false -> ~ In c l.
Proof.
  intros Hl Hc Hin. rewrite forallb_forall in Hl. apply Hl in Hin. congruence.
Qed.

(** Two runs of [p], each ended by a character outside [p], that spell the
    same text are the same run. *)
Lemma run_unique {X : Type} (p : X -> bool) (a a' : list X) c c' r r' :
  forallb p a = true -> forallb p a' = true -> p c = false -> p c' = false ->
  a ++ c :: r = a' ++ c' :: r' -> a = a' /\ c = c' /\ r = r'.
Proof.
  revert a'. induction a as [|x a IH]; intros [|x' a']; simpl;
    intros Ha Ha' Hc Hc' E.
  - injection E as -> ->. auto.
  - injection E as -> _. apply andb_prop in Ha' as [Hx _]. congruence.
  - injection E as -> _. apply andb_prop in Ha as [Hx _]. congruence.
  - injection E as -> E. apply andb_prop in Ha as [_ Ha].
    apply andb_prop in Ha' as [_ Ha'].
    destruct (IH a' Ha Ha' Hc Hc' E) as (-> & -> & ->). auto.
Qed.

Lemma word_hyphen_at : word_hyphen (code "@") = false.
Proof. reflexivity. Qed.

Lemma word_hyphen_space_at : word_hyphen_space (code "@") = false.
Proof. reflexivity. Qed.

Lemma no_at_literal (x : string) :
  existsb (N.eqb (code "@")) (str_of x) = false -> ~ In (code "@") (str_of x).
Proof.
  intros H Hin. assert (existsb (N.eqb (code "@")) (str_of x) = true) as E.
  { apply existsb_exists. exists (code "@"). split; [assumption|].
    apply N.eqb_refl. }
  congruence.
Qed.

Lemma no_at_field_line k v :
  ~ In (code "@") k -> ~ In (code "@") v ->
  ~ In (code "@") (BibEntry.field_line (k, v)).
Proof.
  intros Hk Hv. unfold BibEntry.field_line. simpl fst. simpl snd.
  rewrite !in_app_iff.
  intros [H | [H | [H | [H | H]]]]; try contradiction;
    revert H; now apply no_at_literal.
Qed.

Lemma no_at_lines (l : dict) :
  (forall k v, In (k, v) l -> ~ In (code "@") k /\ ~ In (code "@") v) ->
  ~ In (code "@")
      (concat (map BibEntry.field_line l) ++ str_of (String "010" "}")).
Proof.
  induction l as [|[k v] l IH]; intros H.
  - now apply no_at_literal.
  - destruct (H k v (or_introl eq_refl)) as [Hk Hv].
    change (concat (map BibEntry.field_line ((k, v) :: l)))
      with (BibEntry.field_line (k, v) ++ concat (map BibEntry.field_line l)).
    rewrite <- app_assoc, in_app_iff. intros [Hin | Hin].
    + revert Hin. now apply no_at_field_line.
    + revert Hin. apply IH. intros k' v' Hin. apply H. now right.
Qed.

(** C1, as the code has it.  For every text that parses to a record whose
    field values contain no [@], formatting the record with nothing
    excluded and parsing the result again raises: [format] ends the header
    with a comma and a line feed and puts each field on a line of its own,
    where [parts] wants a comma and a space and the fields on the same
    line. *)
Theorem reparse_formatted_raises (entry : str) (b : BibEntry.t) :
  BibEntry.init alnum entry = inr b ->
  (forall k v, In (k, v) (BibEntry.args b) -> ~ In (code "@") v) ->
  BibEntry.init alnum (BibEntry.format b []) = inl AttributeError.
Proof.
  intros Hinit Hv.
  apply init_parsed in Hinit as ([_ HpT] & _ & HpK & Hkeys).
  assert (~ In (code "@")
            (BibEntry.type b ++ code "{" :: BibEntry.id b ++ code ","
             :: concat (map BibEntry.field_line (BibEntry.args b))
             ++ str_of (String "010" "}"))) as Hno.
  { rewrite in_app_iff. simpl. rewrite in_app_iff. simpl.
    intros [H | [E | [H | [E | H]]]]; try discriminate E.
    - exact (forallb_not_in _ _ _ HpT word_hyphen_at H).
    - exact (forallb_not_in _ _ _ HpK word_hyphen_space_at H).
    - revert H. apply no_at_lines. intros k v Hin. split; [|eauto].
      apply (forallb_not_in word_hyphen); [|exact word_hyphen_at].
      apply Hkeys, in_map_iff. now exists (k, v). }
  unfold BibEntry.init.
  destruct (search str_newline parts (BibEntry.format b [])) as [m|] eqn:Hs;
    [|reflexivity].
  exfalso. rewrite format_all in Hs.
  apply search_some in Hs as (pre & s' & E & Hm).
  apply match_at_in in Hm as (rest & Hin & _).
  apply parts_in in Hin
    as (T' & K' & body' & -> & _ & HpT' & _ & HpK' & _ & _ & _).
  destruct pre as [|c pre].
  - simpl in E. injection E as E.
    apply (run_unique word_hyphen) in E as (_ & _ & E);
      [|assumption|assumption|exact word_hyphen_lbrace
       |exact word_hyphen_lbrace].
    apply (run_unique word_hyphen_space) in E as (_ & _ & E);
      [|assumption|assumption|exact word_hyphen_space_comma
       |exact word_hyphen_space_comma].
    destruct (lines_start (BibEntry.args b)) as [t Et].
    rewrite Et in E. discriminate E.
  - simpl in E. injection E as _ E. apply Hno. rewrite E.
    apply in_or_app. right. now left.
Qed.

End Patterns.

(** ** [PDFParser.doi_regex] and the scan of the first page *)

Lemma is_byte_eq (a : ascii) (b : byte) :
  is_byte a b = true <-> b = byte_of_ascii a.
Proof.
  unfold is_byte, bcode, code. rewrite N.eqb_eq. split.
  - intros H. pose proof (Byte.of_to_N b) as Hb. rewrite H in Hb.
    rewrite <- byte_of_ascii_via_N in Hb. congruence.
  - intros ->. apply Byte.to_of_N. symmetry. apply byte_of_ascii_via_N.
Qed.

Lemma run_blit_in (a : ascii) s caps rest caps' :
  In (rest, caps') (run bytes_newline (PDFParser.blit a) s caps) <->
  s = byte_of_ascii a :: rest /\ caps' = caps.
Proof.
  unfold PDFParser.blit. rewrite run_Class_in. split.
  - intros (c & -> & Hc & ->). apply is_byte_eq in Hc. now subst.
  - intros (-> & ->). exists (byte_of_ascii a). repeat split.
    now apply is_byte_eq.
Qed.

(** The matches of [doi_regex] are the tokens of [doi_token]. *)
Lemma doi_in s rest caps :
  In (rest, caps) (run bytes_newline PDFParser.doi_regex s []) <->
  caps = [] /\ exists t, doi_token t /\ s = t ++ rest.
Proof.
  unfold PDFParser.doi_regex. split.
  - intros H.
    apply run_Seq_in in H as (s1 & c1 & H1 & H).
    apply run_blit_in in H1 as (-> & ->).
    apply run_Seq_in in H as (s2 & c2 & H2 & H).
    apply run_blit_in in H2 as (-> & ->).
    apply run_Seq_in in H as (s3 & c3 & H3 & H).
    apply run_Class_in in H3 as (x & -> & Hx & ->).
    apply run_Seq_in in H as (s4 & c4 & H4 & H).
    apply run_Times_in in H4 as (-> & digits & Hl & Hd & ->).
    apply run_Seq_in in H as (s5 & c5 & H5 & H).
    apply run_blit_in in H5 as (-> & ->).
    apply run_Many1_in in H as (-> & suffix & Hs & Hps & ->).
    split; [reflexivity|].
    exists (bytes_of "10" ++ x :: digits ++ bytes_of "/" ++ suffix). split.
    + exists x, digits, suffix. repeat split; try assumption.
      unfold dot in Hx. now apply negb_true_iff in Hx.
    + simpl. rewrite <- ?app_assoc. reflexivity.
  - intros (-> & t & (x & digits & suffix & -> & Hx & Hl & Hd & Hs & Hps) & ->).
    set (s4 := bytes_of "/" ++ suffix ++ rest).
    set (s3 := digits ++ s4).
    replace ((bytes_of "10" ++ x :: digits ++ bytes_of "/" ++ suffix) ++ rest)
      with (byte_of_ascii "1" :: byte_of_ascii "0" :: x :: s3)
      by (unfold s3, s4; simpl; now rewrite <- ?app_assoc).
    apply run_Seq_in. exists (byte_of_ascii "0" :: x :: s3), [].
    split; [now apply run_blit_in|].
    apply run_Seq_in. exists (x :: s3), [].
    split; [now apply run_blit_in|].
    apply run_Seq_in. exists s3, []. split.
    { apply run_Class_in. exists x. repeat split. unfold dot. now rewrite Hx. }
    apply run_Seq_in. exists s4, []. split.
    { apply run_Times_in. split; [reflexivity|]. exists digits. auto. }
    apply run_Seq_in. exists (suffix ++ rest), [].
    split; [now apply run_blit_in|].
    apply run_Many1_in. split; [reflexivity|]. exists suffix. auto.
Qed.

Lemma doi_run s :
  run bytes_newline PDFParser.doi_regex s [] = []
  \/ exists s5, run bytes_newline PDFParser.doi_regex s []
                = map (fun s' => (s', [])) (many1 true PDFParser.suffix_byte s5).
Proof.
  unfold PDFParser.doi_regex, PDFParser.blit.
  rewrite run_Class_seq. destruct s as [|b1 s]; [now left|].
  destruct (is_byte "1" b1); [|now left].
  rewrite run_Class_seq. destruct s as [|b0 s]; [now left|].
  destruct (is_byte "0" b0); [|now left].
  rewrite run_Class_seq. destruct s as [|x s]; [now left|].
  destruct (dot bytes_newline x); [|now left].
  rewrite run_Times_seq. destruct (times 4 byte_digit s) as [s4|]; [|now left].
  rewrite run_Class_seq. destruct s4 as [|slash s5]; [now left|].
  destruct (is_byte "/" slash); [|now left].
  right. now exists s5.
Qed.

(** Without a token anywhere on the page, the scan finds nothing. *)
Lemma find_doi_none (out : bytes) :
  ~ occurs doi_token out -> PDFParser.find_doi out = inr None.
Proof.
  intros Hno. unfold PDFParser.find_doi.
  destruct (search bytes_newline PDFParser.doi_regex out) as [m|] eqn:Hs;
    [|reflexivity].
  exfalso. apply Hno.
  apply search_some in Hs as (pre & s' & -> & Hm).
  rewrite match_at_run in Hm.
  destruct (run bytes_newline PDFParser.doi_regex s' []) as [|[rest caps] l]
    eqn:Hr; [discriminate|].
  assert (In (rest, caps) (run bytes_newline PDFParser.doi_regex s' []))
    as Hin by (rewrite Hr; now left).
  apply doi_in in Hin as (_ & t & Ht & ->). now exists pre, t, rest.
Qed.

(** With a token on the page, the scan takes the leftmost one, as long as it
    can be made (the longest at that place), and decodes it. *)
Lemma find_doi_first (out : bytes) :
  occurs doi_token out ->
  exists pre t post,
    out = pre ++ t ++ post /\ doi_token t
    /\ stops PDFParser.suffix_byte post
    /\ (forall pre' t' post', out = pre' ++ t' ++ post' -> doi_token t' ->
          length pre <= length pre')
    /\ PDFParser.find_doi out
       = bind (decode_utf8 t) (fun doi => inr (Some doi)).
Proof.
  intros (pre0 & t0 & post0 & E0 & Ht0). unfold PDFParser.find_doi.
  destruct (search bytes_newline PDFParser.doi_regex out) as [m|] eqn:Hs.
  - apply search_leftmost in Hs as (pre & s' & E & Hm & Hleft).
    rewrite match_at_run in Hm.
    destruct (run bytes_newline PDFParser.doi_regex s' []) as [|[post caps] l]
      eqn:Hr; [discriminate|].
    injection Hm as <-. simpl fst. simpl snd.
    assert (In (post, caps) (run bytes_newline PDFParser.doi_regex s' []))
      as Hin by (rewrite Hr; now left).
    apply doi_in in Hin as (-> & t & Ht & ->).
    exists pre, t, post. simpl m_text. rewrite taken_app.
    repeat split; try assumption.
    + destruct (doi_run (t ++ post)) as [Er | (s5 & Er)];
        rewrite Er in Hr; [discriminate|].
      destruct (many1 true PDFParser.suffix_byte s5) as [|r tl] eqn:Em;
        [discriminate|].
      simpl in Hr. injection Hr as <- _. eapply many1_greedy_hd. exact Em.
    + intros pre' t' post' E' Ht'.
      destruct (Nat.le_gt_cases (length pre) (length pre')) as [|Hlt];
        [assumption|].
      exfalso. specialize (Hleft pre' (t' ++ post') E' Hlt).
      apply match_at_none in Hleft.
      assert (In (post', [])
                (run bytes_newline PDFParser.doi_regex (t' ++ post') []))
        as Hin by (apply doi_in; eauto).
      rewrite Hleft in Hin. destruct Hin.
  - exfalso. rewrite search_none in Hs.
    specialize (Hs pre0 (t0 ++ post0) E0). apply match_at_none in Hs.
    assert (In (post0, [])
              (run bytes_newline PDFParser.doi_regex (t0 ++ post0) []))
      as Hin by (apply doi_in; eauto).
    rewrite Hs in Hin. destruct Hin.
Qed.

Lemma doi_shape_point (t : bytes) :
  doi_shape t = true -> In (byte_of_ascii ".") t.
Proof.
  destruct t as [|b1 [|b0 [|point t]]]; try discriminate. simpl.
  rewrite !andb_true_iff. intros [[[_ _] Hp] _].
  apply is_byte_eq in Hp. subst. now right; right; left.
Qed.

Lemma no_point_no_shape (page : bytes) :
  ~ In (byte_of_ascii ".") page ->
  forall pre t post, page = pre ++ t ++ post -> doi_shape t = false.
Proof.
  intros Hno pre t post E. destruct (doi_shape t) eqn:Hs; [|reflexivity].
  exfalso. apply Hno. rewrite E. apply in_or_app. right. apply in_or_app.
  left. now apply doi_shape_point.
Qed.

(** C2, at the page [10], the byte FF, [1234/a].  The page has exactly one
    match of [doi_regex], the whole page, and no substring with the shape of
    a DOI token; the scan neither returns the match nor reports that nothing
    was found: decoding the match raises. *)
Theorem find_doi_raises_on_the_match :
  map (@m_text byte)
      (finditer bytes_newline PDFParser.doi_regex undecodable_page)
  = [undecodable_page]
  /\ (forall pre t post, undecodable_page = pre ++ t ++ post ->
        doi_shape t = false)
  /\ PDFParser.find_doi undecodable_page = inl UnicodeDecodeError.
Proof.
  split; [reflexivity|]. split; [|reflexivity].
  apply no_point_no_shape. simpl. intuition discriminate.
Qed.

(** C3, at the page [10X1234/abc].  No substring of the page has the shape
    of a DOI token, there is no point after [10]; the scan returns the whole
    page as the token. *)
Theorem find_doi_takes_a_letter_for_the_point :
  (forall pre t post, letter_page = pre ++ t ++ post -> doi_shape t = false)
  /\ PDFParser.find_doi letter_page = inr (Some (str_of "10X1234/abc")).
Proof.
  split; [|reflexivity].
  apply no_point_no_shape. simpl. intuition discriminate.
Qed.

(** ** [PDFParser.which] and [PDFParser.__init__] *)

Lemma which_in_find (w : World) (program : str) (paths : list str) :
  PDFParser.which_in w program paths
  = find (PDFParser.is_exe w)
         (map (fun d => os_path.join d program) (map (strip "034") paths)).
Proof.
  induction paths as [|d paths IH]; simpl; [reflexivity|].
  destruct (PDFParser.is_exe w (os_path.join (strip "034" d) program));
    [reflexivity | exact IH].
Qed.

Lemma cut_bare (p : str) :
  ~ In (code "/") p -> os_path.cut p = ([], p).
Proof.
  induction p as [|c p IH]; simpl; [reflexivity|]. intros H.
  rewrite IH by tauto.
  destruct (is_char "/" c) eqn:E; [|reflexivity].
  apply N.eqb_eq in E. subst. tauto.
Qed.

Lemma which_bare (w : World) (p program : str) :
  environ_PATH w = Some p -> ~ In (code "/") program ->
  PDFParser.which w program
  = inr (find (PDFParser.is_exe w)
              (map (fun d => os_path.join d program) (search_dirs p))).
Proof.
  intros Hp Hbare. unfold PDFParser.which, os_path.split.
  rewrite (cut_bare program Hbare). simpl. rewrite Hp.
  now rewrite which_in_find.
Qed.

Lemma join_nonempty (a b : str) : b <> [] -> os_path.join a b <> [].
Proof.
  intros Hb. unfold os_path.join.
  destruct (startswith b (str_of "/")); [assumption|].
  destruct (rev a) as [|c r] eqn:E; [assumption|].
  apply (f_equal (@rev N)) in E. rewrite rev_involutive in E. subst a.
  destruct (is_char "/" c); intros H; apply app_eq_nil in H as [H _];
    apply app_eq_nil in H as [_ H]; discriminate.
Qed.

Lemma join_isabs (a b : str) :
  os_path.isabs a = true -> os_path.isabs (os_path.join a b) = true.
Proof.
  unfold os_path.isabs, os_path.join. intros Ha.
  destruct (startswith b (str_of "/")) eqn:Eb; [assumption|].
  destruct a as [|x a]; [discriminate|].
  destruct (rev (x :: a)) as [|c r] eqn:E.
  { apply (f_equal (@length N)) in E. rewrite length_rev in E. discriminate. }
  simpl in Ha. apply andb_prop in Ha as [Hx _].
  destruct (is_char "/" c); simpl; now rewrite Hx.
Qed.

Lemma find_join (w : World) (program : str) (dirs : list str) (l : str) :
  find (PDFParser.is_exe w) (map (fun d => os_path.join d program) dirs)
  = Some l ->
  exists d, In d dirs /\ l = os_path.join d program
            /\ PDFParser.is_exe w l = true.
Proof.
  intros H. apply find_some in H as [Hin Hexe].
  apply in_map_iff in Hin as (d & <- & Hd). eauto.
Qed.

(** C7, as the code has it.  With a search path [p], construction tries
    [pdftotext] and then [pdftohtml]; for each it looks, directory by
    directory in the order of [p], for an executable regular file named
    after the program, and the first converter found this way is bound, its
    program name replaced by the directory joined with the name.  When
    [pdftotext] is found it is bound, whatever holds of [pdftohtml].  The new
    name is absolute when the directory is. *)
Theorem discover_first_found (w : World) (p : str) :
  environ_PATH w = Some p ->
  let found program :=
    find (PDFParser.is_exe w)
         (map (fun d => os_path.join d program) (search_dirs p)) in
  PDFParser.init w
  = match found (str_of "pdftotext") with
    | Some l => inr (l :: map str_of ["-l"; "1"; "{pdf}"; "-"]%string)
    | None =>
        match found (str_of "pdftohtml") with
        | Some l =>
            inr (l :: map str_of ["-stdout"; "-i"; "-l"; "1"; "{pdf}"]%string)
        | None => inl BareException
        end
    end
  /\ (forall program l, found program = Some l ->
        exists d, In d (search_dirs p) /\ l = os_path.join d program
                  /\ PDFParser.is_exe w l = true
                  /\ (os_path.isabs d = true -> os_path.isabs l = true)).
Proof.
  intros Hp found. split.
  - unfold PDFParser.init, PDFParser.converters. simpl map.
    unfold PDFParser.init_from.
    rewrite (which_bare w p (str_of "pdftotext") Hp)
      by (simpl; intuition discriminate).
    rewrite (which_bare w p (str_of "pdftohtml") Hp)
      by (simpl; intuition discriminate).
    fold (found (str_of "pdftotext")). fold (found (str_of "pdftohtml")).
    destruct (found (str_of "pdftotext")) as [l|] eqn:E1.
    + apply find_join in E1 as (d & _ & -> & _).
      destruct (os_path.join d (str_of "pdftotext")) eqn:Ej; [|reflexivity].
      exfalso. revert Ej. now apply join_nonempty.
    + simpl. destruct (found (str_of "pdftohtml")) as [l|] eqn:E2;
        [|reflexivity].
      apply find_join in E2 as (d & _ & -> & _).
      destruct (os_path.join d (str_of "pdftohtml")) eqn:Ej; [|reflexivity].
      exfalso. revert Ej. now apply join_nonempty.
  - intros program l H. apply find_join in H as (d & Hd & -> & Hexe).
    exists d. repeat split; try assumption. apply join_isabs.
Qed.

(** ** [main] *)

Lemma io_bind_events {X Y : Type} (c : io X) (f : X -> io Y) (ev : event) :
  In ev (fst (io_bind c f)) ->
  In ev (fst c) \/ exists x, snd c = inr x /\ In ev (fst (f x)).
Proof.
  destruct c as [t [e|x]]; simpl; [auto|].
  destruct (f x) as [t' r] eqn:E. simpl. rewrite in_app_iff.
  intros [H | H]; [auto|]. right. exists x. rewrite E. auto.
Qed.

Lemma main_run (w : World) (args : Args) (parser fs : list str) :
  PDFParser.init w = inr parser ->
  gather w (location args) [] = inr fs ->
  main w args = for_each (analyze w parser args) fs.
Proof.
  intros Hp Hg. unfold main, io_bind, lift. rewrite Hp, Hg.
  now destruct (for_each (analyze w parser args) fs).
Qed.

Lemma main_events (w : World) (args : Args) (ev : event) :
  In ev (fst (main w args)) ->
  exists parser fs,
    PDFParser.init w = inr parser /\ gather w (location args) [] = inr fs
    /\ In ev (fst (for_each (analyze w parser args) fs)).
Proof.
  unfold main. intros H.
  apply io_bind_events in H as [[] | (parser & Hp & H)].
  apply io_bind_events in H as [[] | (fs & Hg & H)].
  exists parser, fs. auto.
Qed.

(** The loop stops at the first file whose analysis raises. *)
Lemma for_each_raises {X : Type} (body : X -> io unit)
      (before after : list X) (x : X) (t0 t : list event) (e : exn) :
  for_each body before = (t0, inr tt) -> body x = (t, inl e) ->
  for_each body (before ++ x :: after) = (t0 ++ t, inl e).
Proof.
  revert t0. induction before as [|y before IH]; intros t0; simpl.
  - intros [= <-] Hx. unfold io_bind. now rewrite Hx.
  - intros H Hx. unfold io_bind in *. destruct (body y) as [ty [ey|[]]].
    + discriminate.
    + destruct (for_each body before) as [tb rb] eqn:Eb.
      injection H as <- ->. rewrite (IH tb eq_refl Hx).
      now rewrite app_assoc.
Qed.

Lemma for_each_raises_somewhere {X : Type} (body : X -> io unit)
      (before after : list X) (x : X) (e : exn) :
  snd (body x) = inl e ->
  exists e', snd (for_each body (before ++ x :: after)) = inl e'.
Proof.
  intros Hx. induction before as [|y before [e' IH]]; simpl; unfold io_bind.
  - destruct (body x) as [t r]. simpl in Hx. subst r. simpl. eauto.
  - destruct (body y) as [ty [ey|[]]]; [simpl; eauto|].
    destruct (for_each body (before ++ x :: after)) as [tb rb].
    simpl in IH. subst rb. simpl. eauto.
Qed.

Lemma for_each_events {X : Type} (body : X -> io unit) (l : list X)
      (ev : event) :
  In ev (fst (for_each body l)) -> exists x, In x l /\ In ev (fst (body x)).
Proof.
  induction l as [|x l IH]; simpl; [intros []|]. intros H.
  apply io_bind_events in H as [H | (_ & _ & H)].
  - exists x. auto.
  - apply IH in H as (y & Hy & H). exists y. auto.
Qed.

(** C8, as the code has it.  An error raised while one file is analyzed is
    not caught: the run ends with that error, after what was printed and
    written for the files before it and for that file up to the error; the
    files after it are not analyzed. *)
Theorem error_in_one_file_ends_the_run
    (w : World) (args : Args) (parser : list str)
    (before after : list str) (file : str) (t0 t : list event) (e : exn) :
  PDFParser.init w = inr parser ->
  gather w (location args) [] = inr (before ++ file :: after) ->
  for_each (analyze w parser args) before = (t0, inr tt) ->
  analyze w parser args file = (t, inl e) ->
  main w args = (t0 ++ t, inl e).
Proof.
  intros Hp Hg Hb Hf. rewrite (main_run w args parser _ Hp Hg).
  now apply for_each_raises.
Qed.

(** The two errors of the claim, and the outcome that is no error. *)

Lemma analyze_extraction_fails (w : World) (args : Args) (parser : list str)
      (file : str) (e : exn) :
  PDFParser.get_doi w parser file = inl e ->
  analyze w parser args file
  = ([Print (str_of "Analyzing " ++ file ++ str_of "...")], inl e).
Proof. intros H. unfold analyze, io_bind, lift, print. now rewrite H. Qed.

Lemma analyze_lookup_fails (w : World) (args : Args) (parser : list str)
      (file doi : str) (e : exn) :
  PDFParser.get_doi w parser file = inr (Some doi) -> doi <> [] ->
  BibLookup.get_bibtex w doi = inl e ->
  analyze w parser args file
  = ([Print (str_of "Analyzing " ++ file ++ str_of "...");
      Print (str_of "  .. Found DOI: " ++ doi);
      Print (str_of "  .. Fetching Metadata...")], inl e).
Proof.
  intros H Hd Hl. destruct doi as [|c d]; [congruence|].
  unfold analyze, io_bind, lift, print. now rewrite H, Hl.
Qed.

Lemma analyze_no_doi (w : World) (args : Args) (parser : list str)
      (file : str) :
  PDFParser.get_doi w parser file = inr None ->
  analyze w parser args file
  = ([Print (str_of "Analyzing " ++ file ++ str_of "...");
      Print (str_of "  !! No DOI found!")], inr tt).
Proof. intros H. unfold analyze, io_bind, lift, print. now rewrite H. Qed.

(** The first loop of [main] *)

Lemma gather_file (w : World) (locs : list str) (loc : str) (f : list str) :
  In loc locs -> isfile w loc = true -> gather w locs f = inl AttributeError.
Proof.
  revert f. induction locs as [|l locs IH]; intros f; [intros []|].
  intros Hin Hfile. simpl. destruct (isfile w l) eqn:El; [reflexivity|].
  destruct Hin as [-> | Hin]; [congruence|]. simpl.
  destruct (isdir w l); now apply IH.
Qed.

Lemma gather_walked (w : World) (locs : list str) (f0 fs : list str) :
  gather w locs f0 = inr fs ->
  forall f, In f fs -> In f f0 \/ walked w locs f.
Proof.
  revert f0. induction locs as [|l locs IH]; intros f0; simpl.
  - intros [= <-] f Hf. now left.
  - destruct (isfile w l); [discriminate|]. simpl.
    destruct (isdir w l) eqn:Ed; intros Hg f Hf;
      destruct (IH _ Hg f Hf) as [Hin | (top & dir & names & name & Ht & H)].
    + apply in_app_iff in Hin as [Hin | Hin]; [now left|]. right.
      apply in_flat_map in Hin as ([dir names] & Hw & Hin).
      unfold pdfs_of in Hin. simpl in Hin.
      apply in_map_iff in Hin as (name & <- & Hn).
      apply filter_In in Hn as [Hn Hpdf].
      exists l, dir, names, name. repeat split; auto. now left.
    + right. exists top, dir, names, name. split; [now right | exact H].
    + now left.
    + right. exists top, dir, names, name. split; [now right | exact H].
Qed.

(** C9.  When a location argument names an existing regular file, gathering
    raises (there is no [tolower] on a string) before any file is analyzed:
    the run ends with an error and nothing printed or written.  Whenever
    gathering succeeds, every gathered file comes from walking a directory
    argument. *)
Theorem file_location_raises (w : World) (args : Args) (loc : str) :
  In loc (location args) -> isfile w loc = true ->
  gather w (location args) [] = inl AttributeError
  /\ fst (main w args) = []
  /\ (exists e, snd (main w args) = inl e)
  /\ (forall locs fs f, gather w locs [] = inr fs -> In f fs ->
        walked w locs f).
Proof.
  intros Hin Hfile.
  pose proof (gather_file w (location args) loc [] Hin Hfile) as Hg.
  split; [exact Hg|].
  assert (fst (main w args) = [] /\ exists e, snd (main w args) = inl e)
    as [H1 H2].
  { unfold main, io_bind, lift. rewrite Hg.
    destruct (PDFParser.init w); simpl; eauto. }
  repeat split; try assumption.
  intros locs fs f Hgs Hf.
  destruct (gather_walked w locs [] fs Hgs f Hf) as [[] | H]. exact H.
Qed.

Lemma analyze_writes_nothing (w : World) (args : Args) (parser : list str)
      (file text : str) :
  exclude args = None ->
  ~ In (Write text) (fst (analyze w parser args file)).
Proof.
  intros Hex. unfold analyze, io_bind, lift, print, write.
  destruct (PDFParser.get_doi w parser file) as [e|[[|c d]|]]; simpl;
    try (intuition discriminate).
  destruct (BibLookup.get_bibtex w (c :: d)) as [e|entry]; simpl;
    try (intuition discriminate).
  destruct (BibEntry.init (unicode_alnum w) entry) as [e|b]; simpl;
    try (intuition discriminate).
  rewrite Hex. simpl. intuition discriminate.
Qed.

(** C10.  Without the exclude option, a file whose DOI is found and whose
    record is fetched and parsed is not written: splitting the missing
    option raises, after the three progress lines, and the run ends with an
    error; nothing is ever written in such a run. *)
Theorem missing_exclude_raises
    (w : World) (args : Args) (parser : list str)
    (file doi entry : str) (b : BibEntry.t) :
  exclude args = None ->
  PDFParser.get_doi w parser file = inr (Some doi) -> doi <> [] ->
  BibLookup.get_bibtex w doi = inr entry ->
  BibEntry.init (unicode_alnum w) entry = inr b ->
  analyze w parser args file
  = ([Print (str_of "Analyzing " ++ file ++ str_of "...");
      Print (str_of "  .. Found DOI: " ++ doi);
      Print (str_of "  .. Fetching Metadata...")], inl AttributeError)
  /\ (forall before after,
        PDFParser.init w = inr parser ->
        gather w (location args) [] = inr (before ++ file :: after) ->
        exists e, snd (main w args) = inl e)
  /\ (forall text, ~ In (Write text) (fst (main w args))).
Proof.
  intros Hex Hdoi Hne Hfetch Hparse.
  assert (analyze w parser args file
          = ([Print (str_of "Analyzing " ++ file ++ str_of "...");
              Print (str_of "  .. Found DOI: " ++ doi);
              Print (str_of "  .. Fetching Metadata...")], inl AttributeError))
    as Ha.
  { destruct doi as [|c d]; [congruence|].
    unfold analyze, io_bind, lift, print.
    now rewrite Hdoi, Hfetch, Hparse, Hex. }
  split; [exact Ha|]. split.
  - intros before after Hp Hg. rewrite (main_run w args parser _ Hp Hg).
    apply for_each_raises_somewhere with AttributeError. now rewrite Ha.
  - intros text H.
    apply main_events in H as (parser' & fs & _ & _ & H).
    apply for_each_events in H as (x & _ & H).
    revert H. now apply analyze_writes_nothing.
Qed.

(** * The theorems at sample inputs *)

(** Against C1 as written: the sample entry parses, and its formatted text
    raises when parsed again. *)
Lemma round_trip_fails :
  BibEntry.init latin1_alnum sample_entry = inr sample_record
  /\ BibEntry.init latin1_alnum (BibEntry.format sample_record [])
     = inl AttributeError.
Proof. split; reflexivity. Qed.

Lemma reparse_formatted_raises_witness :
  BibEntry.init latin1_alnum (BibEntry.format sample_record [])
  = inl AttributeError.
Proof.
  apply (reparse_formatted_raises latin1_alnum sample_entry sample_record).
  - reflexivity.
  - intros k v Hin Hat. simpl in Hin.
    destruct Hin as [[= <- <-] | [[= <- <-] | []]];
      simpl in Hat; intuition discriminate.
Defined.

Lemma format_field_lines_witness :
  BibEntry.format sample_record [str_of "year"] = sample_formatted.
Proof.
  destruct (format_field_lines sample_record [str_of "year"]) as [H _].
  - simpl. repeat constructor; simpl; intuition discriminate.
  - rewrite H. reflexivity.
Defined.

(** Against C5 as written: a value on two lines makes the parse raise, and
    a value with [}, ] inside is cut short. *)
Lemma multiline_value_rejected :
  BibEntry.init latin1_alnum two_line_entry = inl AttributeError
  /\ BibEntry.init latin1_alnum comma_entry
     = inr {| BibEntry.id := str_of "k"; BibEntry.type := str_of "article";
              BibEntry.args := [(str_of "title", str_of "A {B")] |}.
Proof. split; reflexivity. Qed.

Lemma init_one_line_record_witness :
  BibEntry.init latin1_alnum
    (str_of "@article{smith2020, title={A {B} C}, year={2020}}")
  = inr {| BibEntry.id := str_of "smith2020";
           BibEntry.type := str_of "article";
           BibEntry.args := nested_fields |}.
Proof.
  apply (init_one_line_record latin1_alnum (str_of "article")
           (str_of "smith2020") nested_fields).
  - split; [discriminate | reflexivity].
  - discriminate.
  - reflexivity.
  - discriminate.
  - intros k v Hin. simpl in Hin.
    destruct Hin as [[= <- <-] | [[= <- <-] | []]];
      (split; [split; [discriminate | reflexivity]
              | split; [discriminate | split; reflexivity]]).
Defined.



(** Against C7 as written: with the relative directory [bin] on the search
    path, the program name is replaced by a relative path. *)
Lemma discover_relative_name :
  PDFParser.init relative_world
  = inr (map str_of ["bin/pdftotext"; "-l"; "1"; "{pdf}"; "-"]%string)
  /\ os_path.isabs (str_of "bin/pdftotext") = false.
Proof. split; reflexivity. Qed.

Lemma discover_first_found_witness :
  PDFParser.init (sample_world service_up) = inr sample_parser.
Proof.
  destruct (discover_first_found (sample_world service_up)
              (str_of "/usr/local/bin:/usr/bin")) as [H _].
  - reflexivity.
  - rewrite H. reflexivity.
Defined.

(** Against C8 as written: the lookup for [lib/a.pdf] fails; the run ends
    there, and [lib/b.pdf], gathered too and with a DOI of its own, is not
    analyzed. *)
Lemma lookup_failure_ends_the_run :
  gather (sample_world service_down) (location sample_args) []
  = inr [str_of "lib/a.pdf"; str_of "lib/b.pdf"]
  /\ main (sample_world service_down) sample_args
     = (sample_progress, inl (Raised "URLError")).
Proof. split; reflexivity. Qed.

Lemma error_in_one_file_ends_the_run_witness :
  main (sample_world service_down) sample_args
  = (sample_progress, inl (Raised "URLError")).
Proof.
  apply (error_in_one_file_ends_the_run (sample_world service_down)
           sample_args sample_parser [] [str_of "lib/b.pdf"]
           (str_of "lib/a.pdf") [] sample_progress (Raised "URLError"));
    reflexivity.
Defined.

Lemma file_location_raises_witness :
  gather (sample_world service_up) (location sample_args_file) []
  = inl AttributeError
  /\ fst (main (sample_world service_up) sample_args_file) = [].
Proof.
  destruct (file_location_raises (sample_world service_up) sample_args_file
              (str_of "paper.pdf")) as (H1 & H2 & _).
  - simpl. auto.
  - reflexivity.
  - split; assumption.
Defined.

Lemma missing_exclude_raises_witness :
  analyze (sample_world service_up) sample_parser sample_args_no_exclude
    (str_of "lib/a.pdf")
  = (sample_progress, inl AttributeError).
Proof.
  refine (proj1 (missing_exclude_raises (sample_world service_up)
                   sample_args_no_exclude sample_parser (str_of "lib/a.pdf")
                   (str_of "10.1000/xyz123") sample_entry sample_record
                   _ _ _ _ _));
    [reflexivity | reflexivity | discriminate | reflexivity | reflexivity].
Defined.

(** * More of the program *)

(** ** Dictionaries and [BibEntry.add_arg] *)

Lemma dict_get_set_same k v (d : dict) : dict_get k (dict_set k v d) = Some v.
Proof.
  induction d as [|[k0 v0] d IH]; simpl.
  - now rewrite str_eqb_refl.
  - destruct (str_eqb k0 k) eqn:E; simpl.
    + now rewrite str_eqb_refl.
    + now rewrite E.
Qed.

Lemma dict_get_set_other k v (d : dict) k' :
  k' <> k -> dict_get k' (dict_set k v d) = dict_get k' d.
Proof.
  intros Hk. induction d as [|[k0 v0] d IH]; simpl.
  - destruct (str_eqb k k') eqn:E; [|reflexivity].
    apply str_eqb_eq in E. congruence.
  - destruct (str_eqb k0 k) eqn:E; simpl.
    + apply str_eqb_eq in E. subst k0.
      destruct (str_eqb k k') eqn:E'; [|reflexivity].
      apply str_eqb_eq in E'. congruence.
    + now rewrite IH.
Qed.

Lemma dict_set_key_order k v (d : dict) :
  map fst (dict_set k v d)
  = if str_in k (map fst d) then map fst d else map fst d ++ [k].
Proof.
  induction d as [|[k0 v0] d IH]; simpl; [reflexivity|].
  unfold str_in in *. simpl.
  destruct (str_eqb k0 k) eqn:E; simpl.
  - apply str_eqb_eq in E. subst k0. now rewrite str_eqb_refl.
  - destruct (str_eqb k k0) eqn:E'.
    + apply str_eqb_eq in E'. subst k0. now rewrite str_eqb_refl in E.
    + simpl. rewrite IH. now destruct (existsb (str_eqb k) (map fst d)).
Qed.

Lemma dict_set_idem k v (d : dict) :
  dict_set k v (dict_set k v d) = dict_set k v d.
Proof.
  induction d as [|[k0 v0] d IH]; simpl.
  - now rewrite str_eqb_refl.
  - destruct (str_eqb k0 k) eqn:E; simpl.
    + now rewrite str_eqb_refl.
    + now rewrite E, IH.
Qed.

Lemma dict_get_none k (d : dict) :
  dict_get k d = None <-> ~ In k (map fst d).
Proof.
  induction d as [|[k0 v0] d IH]; simpl; [tauto|].
  destruct (str_eqb k0 k) eqn:E.
  - apply str_eqb_eq in E. subst. split; [discriminate | tauto].
  - apply str_eqb_neq in E. rewrite IH. tauto.
Qed.

Lemma dict_set_new k v (d : dict) :
  dict_get k d = None -> dict_set k v d = d ++ [(k, v)].
Proof.
  induction d as [|[k0 v0] d IH]; simpl; [reflexivity|].
  destruct (str_eqb k0 k); [discriminate|]. intros H. now rewrite IH.
Qed.

(** X1.  [add_arg] overwrites or inserts one field: afterwards the key holds
    the new value, every other key holds what it held, type and key of the
    record are untouched, an existing field keeps its place and a new one
    goes last, and adding the same field again changes nothing. *)
Theorem add_arg_overwrites_or_inserts (b : BibEntry.t) (key value : str) :
  let b' := BibEntry.add_arg b key value in
  dict_get key (BibEntry.args b') = Some value
  /\ (forall k, k <> key ->
        dict_get k (BibEntry.args b') = dict_get k (BibEntry.args b))
  /\ BibEntry.id b' = BibEntry.id b /\ BibEntry.type b' = BibEntry.type b
  /\ map fst (BibEntry.args b')
     = (if str_in key (map fst (BibEntry.args b))
        then map fst (BibEntry.args b)
        else map fst (BibEntry.args b) ++ [key])
  /\ BibEntry.add_arg b' key value = b'.
Proof.
  simpl. repeat split.
  - apply dict_get_set_same.
  - intros k Hk. now apply dict_get_set_other.
  - apply dict_set_key_order.
  - unfold BibEntry.add_arg. simpl. now rewrite dict_set_idem.
Qed.

(** ** [BibEntry.format] again *)

Lemma format_lines (b : BibEntry.t) (E : list str) :
  BibEntry.format b E
  = BibEntry.header b
    ++ concat (map BibEntry.field_line
                   (filter (BibEntry.shown E) (BibEntry.args b)))
    ++ str_of (String "010" "}").
Proof. unfold BibEntry.format. now rewrite fold_emit, <- app_assoc. Qed.

(** X2.  [format] looks at the exclusion list only through membership: two
    lists that hold the same names among the record's field names (in any
    order, with or without repeats or names the record does not have) give
    the same text. *)
Theorem format_exclusion_by_membership (b : BibEntry.t) (E E' : list str) :
  (forall k, In k (map fst (BibEntry.args b)) -> (In k E <-> In k E')) ->
  BibEntry.format b E = BibEntry.format b E'.
Proof.
  intros H. rewrite !format_lines.
  assert (filter (BibEntry.shown E) (BibEntry.args b)
          = filter (BibEntry.shown E') (BibEntry.args b)) as ->;
    [|reflexivity].
  apply filter_ext_in. intros [k v] Hin. unfold BibEntry.shown. simpl.
  assert (In k (map fst (BibEntry.args b))) as Hk
      by (apply in_map_iff; now exists (k, v)).
  specialize (H k Hk). f_equal.
  destruct (str_in k E) eqn:E1, (str_in k E') eqn:E2; try reflexivity.
  - apply str_in_In, H, str_in_In in E1. congruence.
  - apply str_in_In, H, str_in_In in E2. congruence.
Qed.

(** X3.  A field added under a name the record did not have, and not
    excluded, is the last line of the formatted text, after the lines the
    record had. *)
Theorem format_new_field_last (b : BibEntry.t) (E : list str) (key value : str) :
  dict_get key (BibEntry.args b) = None -> ~ In key E ->
  BibEntry.format (BibEntry.add_arg b key value) E
  = BibEntry.header b
    ++ concat (map BibEntry.field_line
                   (filter (BibEntry.shown E) (BibEntry.args b)))
    ++ BibEntry.field_line (key, value)
    ++ str_of (String "010" "}").
Proof.
  intros Hnew HE. rewrite format_lines.
  change (BibEntry.header (BibEntry.add_arg b key value))
    with (BibEntry.header b).
  change (BibEntry.args (BibEntry.add_arg b key value))
    with (dict_set key value (BibEntry.args b)).
  rewrite (dict_set_new _ _ _ Hnew), filter_app, map_app, concat_app.
  assert (filter (BibEntry.shown E) [(key, value)] = [(key, value)]) as ->.
  { cbn [filter]. unfold BibEntry.shown. cbn [fst].
    destruct (str_in key E) eqn:Ein; [|reflexivity].
    apply str_in_In in Ein. contradiction. }
  cbn [map concat]. now rewrite app_nil_r, <- app_assoc.
Qed.

(** X4.  Adding or overwriting a field whose name is excluded does not
    change the formatted text. *)
Theorem format_excluded_field_unseen (b : BibEntry.t) (E : list str)
    (key value : str) :
  In key E ->
  BibEntry.format (BibEntry.add_arg b key value) E = BibEntry.format b E.
Proof.
  intros HE. rewrite !format_lines. unfold BibEntry.add_arg, BibEntry.header.
  simpl.
  assert (filter (BibEntry.shown E) (dict_set key value (BibEntry.args b))
          = filter (BibEntry.shown E) (BibEntry.args b)) as ->;
    [|reflexivity].
  apply str_in_In in HE.
  induction (BibEntry.args b) as [|[k0 v0] d IH]; cbn [dict_set].
  - cbn [filter]. unfold BibEntry.shown. cbn [fst]. now rewrite HE.
  - destruct (str_eqb k0 key) eqn:Ek.
    + apply str_eqb_eq in Ek. subst k0. cbn [filter].
      unfold BibEntry.shown. cbn [fst]. now rewrite HE.
    + cbn [filter]. now rewrite IH.
Qed.

(** ** [BibEntry.__init__] again *)

Lemma dict_set_in k v (d : dict) kv :
  In kv (dict_set k v d) -> kv = (k, v) \/ In kv d.
Proof.
  induction d as [|[k0 v0] d IH]; simpl.
  - intuition.
  - destruct (str_eqb k0 k); simpl; intuition.
Qed.

Lemma store_pairs (P : str * str -> Prop) ks (d : dict) :
  (forall m, In m ks -> P (group m "key", group m "value")) ->
  (forall kv, In kv d -> P kv) ->
  forall kv, In kv (fold_left BibEntry.store ks d) -> P kv.
Proof.
  revert d. induction ks as [|m ks IH]; intros d Hks Hd; simpl; [exact Hd|].
  apply IH.
  - intros m' Hm'. apply Hks. now right.
  - intros kv Hkv. unfold BibEntry.store in Hkv.
    apply dict_set_in in Hkv as [-> | Hkv]; [apply Hks; now left | auto].
Qed.

Lemma find_app_last {X : Type} (f : X -> bool) (l : list X) (a : X) :
  find f (l ++ [a])
  = match find f l with
    | Some x => Some x
    | None => if f a then Some a else None
    end.
Proof.
  induction l as [|x l IH]; simpl; [reflexivity|]. now destruct (f x).
Qed.

Lemma last_binding_cons k kv (fs : list (str * str)) :
  last_binding k (kv :: fs)
  = match last_binding k fs with
    | Some v => Some v
    | None => if str_eqb (fst kv) k then Some (snd kv) else None
    end.
Proof.
  unfold last_binding. simpl rev. rewrite find_app_last.
  destruct (find (fun kv0 => str_eqb (fst kv0) k) (rev fs)); simpl;
    [reflexivity|].
  now destruct (str_eqb (fst kv) k).
Qed.

Lemma dict_get_assigned k (fs : list (str * str)) (d : dict) :
  dict_get k (fold_left (fun d kv => dict_set (fst kv) (snd kv) d) fs d)
  = match last_binding k fs with
    | Some v => Some v
    | None => dict_get k d
    end.
Proof.
  revert d. induction fs as [|[k0 v0] fs IH]; intros d; [reflexivity|].
  simpl fold_left. rewrite IH, last_binding_cons.
  destruct (last_binding k fs); [reflexivity|]. simpl.
  destruct (str_eqb k0 k) eqn:E.
  - apply str_eqb_eq in E. subst. apply dict_get_set_same.
  - apply dict_get_set_other. apply str_eqb_neq in E. congruence.
Qed.

Lemma assigned_distinct (fs : list (str * str)) (d : dict) :
  NoDup (map fst fs) ->
  (forall k, In k (map fst fs) -> ~ In k (map fst d)) ->
  fold_left (fun d kv => dict_set (fst kv) (snd kv) d) fs d = d ++ fs.
Proof.
  revert d. induction fs as [|[k v] fs IH]; intros d Hnd Hdis; simpl.
  - now rewrite app_nil_r.
  - inversion Hnd as [|? ? Hk Hnd']; subst.
    rewrite dict_set_new by (apply dict_get_none, Hdis; now left).
    rewrite IH; [now rewrite <- app_assoc | assumption |].
    intros k' Hk' Hin. rewrite map_app, in_app_iff in Hin.
    destruct Hin as [Hin | [<- | []]].
    + apply (Hdis k'); [now right | assumption].
    + contradiction.
Qed.

Section Records.

Variable alnum : N -> bool.

Local Abbreviation parts := (BibEntry.parts alnum).
Local Abbreviation keys := (BibEntry.keys alnum).
Local Abbreviation word_hyphen_space := (BibEntry.word_hyphen_space alnum).

Lemma init_fields (entry : str) (b : BibEntry.t) :
  BibEntry.init alnum entry = inr b ->
  forall k v, In (k, v) (BibEntry.args b) ->
    field_name alnum k /\ v <> [] /\ forallb BibEntry.any v = true.
Proof.
  unfold BibEntry.init.
  destruct (search str_newline parts entry) as [m|]; [|discriminate].
  intros [= <-] k v Hin. simpl in Hin.
  apply (store_pairs
           (fun kv => field_name alnum (fst kv) /\ snd kv <> []
                      /\ forallb BibEntry.any (snd kv) = true)) in Hin.
  - exact Hin.
  - intros m' Hm'. apply scan_in in Hm' as (s2 & Hm').
    apply match_at_in in Hm' as (rest' & Hin' & _).
    apply keys_in in Hin'
      as (k' & v' & sep & _ & Hk & Hpk & Hv & Hpv & _ & Hc').
    unfold group. rewrite Hc'. simpl. repeat split; assumption.
  - intros kv [].
Qed.

(** X5.  A record that parsed is well formed: type and key are non-empty,
    the type of word or hyphen characters and the key of word, hyphen or
    space characters; every field name occurs once and is a non-empty run of
    word or hyphen characters; every value is non-empty and has no line
    feed. *)
Theorem parsed_record_shape (entry : str) (b : BibEntry.t) :
  BibEntry.init alnum entry = inr b ->
  field_name alnum (BibEntry.type b)
  /\ BibEntry.id b <> []
  /\ forallb word_hyphen_space (BibEntry.id b) = true
  /\ NoDup (map fst (BibEntry.args b))
  /\ (forall k v, In (k, v) (BibEntry.args b) ->
        field_name alnum k /\ v <> [] /\ forallb BibEntry.any v = true).
Proof.
  intros Hinit.
  destruct (init_parsed alnum entry b Hinit) as (HT & HK & HpK & _).
  split; [exact HT|]. split; [exact HK|]. split; [exact HpK|].
  split; [exact (init_NoDup alnum entry b Hinit)|].
  exact (init_fields entry b Hinit).
Qed.

(** X6.  Construction succeeds exactly on the texts in which a substring has
    the outer shape [@<type>{<key>, <args>}] on one line; what [<args>] holds
    never makes it raise (fields that do not have the shape [name={value}]
    are passed over). *)
Theorem init_succeeds_iff (entry : str) :
  (exists b, BibEntry.init alnum entry = inr b)
  <-> occurs (outer_record alnum) entry.
Proof.
  split; [|apply init_accepts_records].
  intros [b Hinit]. unfold BibEntry.init in Hinit.
  destruct (search str_newline parts entry) as [m|] eqn:Hs; [|discriminate].
  apply search_some in Hs as (pre & s' & -> & Hm).
  apply match_at_in in Hm as (rest & Hin & _).
  apply parts_in in Hin
    as (T & K & body & -> & HT & HpT & HK & HpK & Hb & Hpb & _).
  exists pre,
    (str_of "@" ++ T ++ str_of "{" ++ K ++ str_of ", " ++ body ++ str_of "}"),
    rest.
  split; [now rewrite <- !app_assoc|].
  exists T, K, body. repeat split; assumption.
Qed.

(** X7.  When a field name occurs more than once in a record on one line,
    the last value is the one kept; when the names are all different the
    fields are kept as written, in order. *)
Theorem init_last_value_kept (T K : str) (fs : list (str * str)) :
  field_name alnum T ->
  K <> [] -> forallb word_hyphen_space K = true ->
  fs <> [] -> fields_ok alnum fs ->
  exists b,
    BibEntry.init alnum (record_text T K fs) = inr b
    /\ (forall k, dict_get k (BibEntry.args b) = last_binding k fs)
    /\ (NoDup (map fst fs) -> BibEntry.args b = fs).
Proof.
  intros [HT HpT] HK HpK Hfs Hok.
  pose proof (parts_at_line alnum T K (fields_text fs) HT HpT HK HpK
                (fields_text_nonempty alnum fs Hok Hfs)
                (fields_text_any alnum fs Hok)) as Hm.
  cbv zeta in Hm. unfold BibEntry.init, record_text.
  rewrite (search_here _ _ _ _ Hm).
  unfold group. simpl m_groups. simpl lookup.
  rewrite (store_fields alnum fs [] Hok).
  eexists. split; [reflexivity|]. simpl. split.
  - intros k. rewrite dict_get_assigned.
    now destruct (last_binding k fs).
  - intros Hnd. now rewrite assigned_distinct.
Qed.

End Records.

(** ** The scan of the first page again *)

Lemma utf8_ascii (s : bytes) :
  ascii_only s = true -> utf8 s = Some (map bcode s).
Proof.
  induction s as [|b s IH]; simpl; [reflexivity|].
  rewrite andb_true_iff. intros [Hb Hs]. rewrite Hb, (IH Hs). reflexivity.
Qed.

(** A byte of 80 or above followed by an ASCII byte is not UTF-8. *)
Lemma utf8_lead_then_ascii (b0 b1 : byte) (s : bytes) :
  (bcode b0 <? 128)%N = false -> (bcode b1 <? 128)%N = true ->
  utf8 (b0 :: b1 :: s) = None.
Proof.
  intros H0 H1.
  assert (forall lo hi, (128 <= lo)%N -> between lo hi (bcode b1) = false)
    as Hlow.
  { intros lo hi Hlo. unfold between. apply N.ltb_lt in H1.
    destruct (N.leb_spec lo (bcode b1)); [lia | reflexivity]. }
  cbn [utf8]. rewrite H0. unfold continuation at 1.
  rewrite (Hlow 128%N 191%N) by lia.
  destruct (between 194 223 (bcode b0)); [reflexivity|].
  destruct s as [|b2 s]; [reflexivity|].
  unfold continuation at 1.
  rewrite (Hlow 160%N), (Hlow 128%N 159%N), (Hlow 128%N 191%N) by lia.
  assert ((if (bcode b0 =? 224)%N then false
           else if (bcode b0 =? 237)%N then false else false) = false) as ->
      by (destruct (bcode b0 =? 224)%N, (bcode b0 =? 237)%N; reflexivity).
  cbn [andb].
  destruct (between 224 239 (bcode b0)); [reflexivity|].
  destruct s as [|b3 s]; [reflexivity|].
  unfold continuation at 1.
  rewrite (Hlow 144%N), (Hlow 128%N 143%N), (Hlow 128%N 191%N) by lia.
  assert ((if (bcode b0 =? 240)%N then false
           else if (bcode b0 =? 244)%N then false else false) = false) as ->
      by (destruct (bcode b0 =? 240)%N, (bcode b0 =? 244)%N; reflexivity).
  cbn [andb]. now destruct (between 240 244 (bcode b0)).
Qed.

Lemma ascii_word_low (x : N) : ascii_word x = true -> (x <? 128)%N = true.
Proof.
  unfold ascii_word, ascii_digit, between.
  rewrite !orb_true_iff, !andb_true_iff, !N.leb_le, N.eqb_eq, N.ltb_lt. lia.
Qed.

Lemma byte_digit_low (b : byte) :
  byte_digit b = true -> (bcode b <? 128)%N = true.
Proof.
  unfold byte_digit, ascii_digit, between.
  rewrite andb_true_iff, !N.leb_le, N.ltb_lt. lia.
Qed.

Lemma suffix_byte_low (b : byte) :
  PDFParser.suffix_byte b = true -> (bcode b <? 128)%N = true.
Proof.
  unfold PDFParser.suffix_byte, byte_word, is_byte.
  rewrite !orb_true_iff. intros [[H | H] | H].
  - now apply ascii_word_low.
  - apply N.eqb_eq in H. now rewrite H.
  - apply N.eqb_eq in H. now rewrite H.
Qed.

(** A token that decodes is ASCII, and decodes to itself. *)
Lemma token_decodes (t : bytes) (d : str) :
  doi_token t -> utf8 t = Some d -> ascii_only t = true /\ d = map bcode t.
Proof.
  intros (x & digits & suffix & -> & Hx & Hl & Hd & Hs & Hps) Hu.
  assert (ascii_only (digits ++ bytes_of "/" ++ suffix) = true) as Hrest.
  { unfold ascii_only. rewrite !forallb_app.
    rewrite (forallb_impl _ _ _ byte_digit_low Hd).
    rewrite (forallb_impl _ _ _ suffix_byte_low Hps). reflexivity. }
  destruct (bcode x <? 128)%N eqn:Ex.
  - assert (ascii_only (bytes_of "10" ++ x :: digits ++ bytes_of "/" ++ suffix)
            = true) as Hall.
    { change (ascii_only (x :: digits ++ bytes_of "/" ++ suffix) = true).
      unfold ascii_only in *. cbn [forallb]. now rewrite Ex, Hrest. }
    split; [exact Hall|]. rewrite (utf8_ascii _ Hall) in Hu. congruence.
  - exfalso. destruct digits as [|d1 digits]; [discriminate|].
    cbn [forallb] in Hd. apply andb_prop in Hd as [Hd1 _].
    change (utf8 (bytes_of "10" ++ x :: (d1 :: digits) ++ bytes_of "/" ++ suffix))
      with (decoded 49 (decoded 48
              (utf8 (x :: d1 :: digits ++ bytes_of "/" ++ suffix)))) in Hu.
    rewrite (utf8_lead_then_ascii x d1 _ Ex (byte_digit_low d1 Hd1)) in Hu.
    discriminate.
Qed.

Lemma token_length (t : bytes) : doi_token t -> 9 <= length t.
Proof.
  intros (x & digits & suffix & -> & _ & Hl & _ & Hs & _).
  destruct suffix; [congruence|].
  simpl. rewrite length_app. simpl. lia.
Qed.

(** What the scan matched, when it matched. *)
Lemma find_doi_match (out : bytes) (m : rmatch) :
  search bytes_newline PDFParser.doi_regex out = Some m ->
  exists pre post, out = pre ++ m_text m ++ post /\ doi_token (m_text m).
Proof.
  intros Hs. apply search_some in Hs as (pre & s' & -> & Hm).
  rewrite match_at_run in Hm.
  destruct (run bytes_newline PDFParser.doi_regex s' []) as [|[post caps] l]
    eqn:Hr; [discriminate|].
  injection Hm as <-. simpl.
  assert (In (post, caps) (run bytes_newline PDFParser.doi_regex s' []))
    as Hin by (rewrite Hr; now left).
  apply doi_in in Hin as (_ & t & Htok & ->).
  rewrite taken_app. eauto.
Qed.

(** X8.  The scan reports that nothing was found exactly when no substring
    of the page is a token of the pattern. *)
Theorem find_doi_none_iff (out : bytes) :
  PDFParser.find_doi out = inr None <-> ~ occurs doi_token out.
Proof.
  split; [|apply find_doi_none].
  intros Hnone Hocc.
  destruct (find_doi_first out Hocc) as (pre & t & post & _ & _ & _ & _ & E).
  rewrite Hnone in E. unfold bind in E.
  destruct (decode_utf8 t); discriminate.
Qed.

(** X9.  A DOI the scan returns is the text of a token that occurs on the
    page, byte for byte: it is ASCII, at least nine characters long, and so
    never the empty string. *)
Theorem find_doi_returns_a_token (out : bytes) (doi : str) :
  PDFParser.find_doi out = inr (Some doi) ->
  exists pre t post,
    out = pre ++ t ++ post /\ doi_token t /\ ascii_only t = true
    /\ doi = map bcode t /\ 9 <= length doi.
Proof.
  unfold PDFParser.find_doi.
  destruct (search bytes_newline PDFParser.doi_regex out) as [m|] eqn:Hs;
    [|discriminate].
  apply find_doi_match in Hs as (pre & post & E & Htok).
  unfold decode_utf8, bind.
  destruct (utf8 (m_text m)) as [d|] eqn:Hu; [|discriminate].
  intros [= <-].
  destruct (token_decodes _ _ Htok Hu) as [Hascii ->].
  exists pre, (m_text m), post. repeat split; try assumption.
  rewrite length_map. now apply token_length.
Qed.

(** X10.  The scan raises nothing but the decoding error, and only on a page
    that holds a byte of 80 or above: on an ASCII page it never raises. *)
Theorem find_doi_raises_only_undecodable (out : bytes) (e : exn) :
  PDFParser.find_doi out = inl e ->
  e = UnicodeDecodeError /\ ascii_only out = false.
Proof.
  unfold PDFParser.find_doi.
  destruct (search bytes_newline PDFParser.doi_regex out) as [m|] eqn:Hs;
    [|discriminate].
  apply find_doi_match in Hs as (pre & post & E & Htok).
  unfold decode_utf8, bind.
  destruct (utf8 (m_text m)) as [d|] eqn:Hu; [discriminate|].
  intros [= <-]. split; [reflexivity|].
  destruct (ascii_only out) eqn:Ha; [|reflexivity].
  exfalso. rewrite E in Ha. unfold ascii_only in Ha.
  rewrite !forallb_app, !andb_true_iff in Ha. destruct Ha as (_ & Ht & _).
  rewrite (utf8_ascii _ Ht) in Hu. discriminate.
Qed.

(** X11.  When some substring of the page is a token, the scan takes the
    leftmost one and, at that place, the longest; what it returns, or
    raises, is the decoding of that token. *)
Theorem find_doi_leftmost_longest (out : bytes) :
  occurs doi_token out ->
  exists pre t post,
    out = pre ++ t ++ post /\ doi_token t
    /\ stops PDFParser.suffix_byte post
    /\ (forall pre' t' post', out = pre' ++ t' ++ post' -> doi_token t' ->
          length pre <= length pre')
    /\ PDFParser.find_doi out
       = bind (decode_utf8 t) (fun doi => inr (Some doi)).
Proof. exact (find_doi_first out). Qed.

(** ** [which] and construction of the parser again *)

Lemma lstrip_nil (a : ascii) (s : str) :
  lstrip a s = [] <-> forallb (is_char a) s = true.
Proof.
  induction s as [|c s IH]; simpl; [tauto|].
  destruct (is_char a c); simpl; [exact IH | split; discriminate].
Qed.

Lemma forallb_rev {X : Type} (p : X -> bool) (l : list X) :
  forallb p (rev l) = forallb p l.
Proof.
  induction l as [|x l IH]; simpl; [reflexivity|].
  rewrite forallb_app, IH. simpl. rewrite andb_true_r. apply andb_comm.
Qed.

Lemma rstrip_nil (a : ascii) (s : str) :
  rstrip a s = [] <-> lstrip a s = [].
Proof.
  unfold rstrip. rewrite !lstrip_nil, <- (forallb_rev _ s), <- lstrip_nil.
  split; intros H.
  - apply (f_equal (@rev N)) in H. now rewrite rev_involutive in H.
  - now rewrite H.
Qed.

Lemma cut_slash (p : str) :
  In (code "/") p -> fst (os_path.cut p) <> [].
Proof.
  induction p as [|c p IH]; simpl; [tauto|]. intros [-> | Hin].
  - destruct (os_path.cut p) as [[|h head] tail]; simpl; discriminate.
  - specialize (IH Hin).
    destruct (os_path.cut p) as [[|h head] tail]; simpl in *;
      [congruence | discriminate].
Qed.

Lemma split_slash (p : str) :
  In (code "/") p -> fst (os_path.split p) <> [].
Proof.
  intros Hin. apply cut_slash in Hin. unfold os_path.split.
  destruct (os_path.cut p) as [head tail]. simpl in Hin.
  destruct (lstrip "/" head) eqn:E; simpl; [assumption|].
  intros H. apply rstrip_nil in H. congruence.
Qed.

(** X12.  A program given with a directory (a name with a slash) is not
    looked up on the search path: [which] returns the name itself when it is
    an executable regular file and [None] otherwise, also when the variable
    PATH is not set. *)
Theorem which_with_directory (w : World) (program : str) :
  In (code "/") program ->
  PDFParser.which w program
  = inr (if PDFParser.is_exe w program then Some program else None).
Proof.
  intros Hin. apply split_slash in Hin. unfold PDFParser.which.
  destruct (fst (os_path.split program)); [congruence | reflexivity].
Qed.

Lemma cut_bare_split (p : str) :
  ~ In (code "/") p -> fst (os_path.split p) = [].
Proof.
  intros H. unfold os_path.split. now rewrite (cut_bare p H).
Qed.

(** The first lookup of a bare name reads the variable PATH. *)
Lemma which_unset_PATH (w : World) (program : str) :
  ~ In (code "/") program ->
  environ_PATH w = None -> PDFParser.which w program = inl KeyError.
Proof.
  intros Hbare Hp. unfold PDFParser.which.
  rewrite (cut_bare_split program Hbare). now rewrite Hp.
Qed.

(** X13.  Without the variable PATH construction raises the key error of
    the lookup in [os.environ], not the exception it raises when no
    converter is installed. *)
Theorem init_without_PATH (w : World) :
  environ_PATH w = None -> PDFParser.init w = inl KeyError.
Proof.
  intros Hp. unfold PDFParser.init, PDFParser.converters. simpl map.
  unfold PDFParser.init_from.
  now rewrite (which_unset_PATH w (str_of "pdftotext"))
    by (assumption || (simpl; intuition discriminate)).
Qed.

Lemma find_none_iff {X : Type} (f : X -> bool) (l : list X) :
  find f l = None <-> forall x, In x l -> f x = false.
Proof.
  split; [apply find_none|].
  induction l as [|x l IH]; simpl; [reflexivity|]. intros H.
  rewrite (H x (or_introl eq_refl)). apply IH. intros y Hy. apply H. now right.
Qed.

(** Construction, by what is found for each program. *)
Lemma init_found (w : World) (p : str) :
  environ_PATH w = Some p ->
  PDFParser.init w
  = match find (PDFParser.is_exe w)
               (map (fun d => os_path.join d (str_of "pdftotext"))
                    (search_dirs p)) with
    | Some l => inr (l :: map str_of ["-l"; "1"; "{pdf}"; "-"]%string)
    | None =>
        match find (PDFParser.is_exe w)
                   (map (fun d => os_path.join d (str_of "pdftohtml"))
                        (search_dirs p)) with
        | Some l =>
            inr (l :: map str_of ["-stdout"; "-i"; "-l"; "1"; "{pdf}"]%string)
        | None => inl BareException
        end
    end.
Proof.
  intros Hp. unfold PDFParser.init, PDFParser.converters. simpl map.
  unfold PDFParser.init_from.
  rewrite (which_bare w p (str_of "pdftotext") Hp)
    by (simpl; intuition discriminate).
  rewrite (which_bare w p (str_of "pdftohtml") Hp)
    by (simpl; intuition discriminate).
  destruct (find _ (map (fun d => os_path.join d (str_of "pdftotext")) _))
    as [l|] eqn:E1.
  - apply find_join in E1 as (d & _ & -> & _).
    destruct (os_path.join d (str_of "pdftotext")) eqn:Ej; [|reflexivity].
    exfalso. revert Ej. now apply join_nonempty.
  - simpl.
    destruct (find _ (map (fun d => os_path.join d (str_of "pdftohtml")) _))
      as [l|] eqn:E2; [|reflexivity].
    apply find_join in E2 as (d & _ & -> & _).
    destruct (os_path.join d (str_of "pdftohtml")) eqn:Ej; [|reflexivity].
    exfalso. revert Ej. now apply join_nonempty.
Qed.

(** Construction when no directory holds a converter. *)
Lemma init_nothing_found (w : World) (p : str) :
  environ_PATH w = Some p ->
  (forall d, In d (search_dirs p) ->
     PDFParser.is_exe w (os_path.join d (str_of "pdftotext")) = false
     /\ PDFParser.is_exe w (os_path.join d (str_of "pdftohtml")) = false) ->
  PDFParser.init w = inl BareException.
Proof.
  intros Hp H. rewrite (init_found w p Hp).
  assert (forall prog, prog = str_of "pdftotext" \/ prog = str_of "pdftohtml" ->
            find (PDFParser.is_exe w)
                 (map (fun d => os_path.join d prog) (search_dirs p)) = None)
    as Hnone.
  { intros prog Hprog. apply find_none_iff. intros x Hx.
    apply in_map_iff in Hx as (d & <- & Hd).
    destruct Hprog as [-> | ->]; now apply H. }
  rewrite (Hnone (str_of "pdftotext")) by now left.
  now rewrite (Hnone (str_of "pdftohtml")) by now right.
Qed.

(** X14.  With a search path, construction raises its bare exception exactly
    when no directory of the path holds an executable regular file named
    [pdftotext] or [pdftohtml]. *)
Theorem init_no_converter_iff (w : World) (p : str) :
  environ_PATH w = Some p ->
  PDFParser.init w = inl BareException
  <-> (forall d, In d (search_dirs p) ->
         PDFParser.is_exe w (os_path.join d (str_of "pdftotext")) = false
         /\ PDFParser.is_exe w (os_path.join d (str_of "pdftohtml")) = false).
Proof.
  intros Hp. split; [|apply (init_nothing_found w p Hp)].
  rewrite (init_found w p Hp). intros H d Hd.
  destruct (find _ (map (fun d => os_path.join d (str_of "pdftotext")) _))
    as [l|] eqn:E1; [discriminate|].
  destruct (find _ (map (fun d => os_path.join d (str_of "pdftohtml")) _))
    as [l|] eqn:E2; [discriminate|].
  rewrite find_none_iff in E1, E2.
  split; [apply E1 | apply E2]; apply in_map_iff; eauto.
Qed.

(** X15.  The converter a construction binds is one of the two descriptors
    with its program name replaced: the new name is an executable regular
    file, a directory of the search path joined with the program name, and
    the arguments, the placeholder for the file among them, are as
    written. *)
Theorem init_binds_an_executable (w : World) (converter : list str) :
  PDFParser.init w = inr converter ->
  exists p d program arguments,
    environ_PATH w = Some p /\ In d (search_dirs p)
    /\ In (program :: arguments) PDFParser.converters
    /\ converter = os_path.join d program :: arguments
    /\ PDFParser.is_exe w (os_path.join d program) = true.
Proof.
  intros Hinit. destruct (environ_PATH w) as [p|] eqn:Hp.
  - rewrite (init_found w p Hp) in Hinit.
    destruct (find _ (map (fun d => os_path.join d (str_of "pdftotext")) _))
      as [l|] eqn:E1.
    + injection Hinit as <-. apply find_join in E1 as (d & Hd & -> & Hexe).
      exists p, d, (str_of "pdftotext"),
        (map str_of ["-l"; "1"; "{pdf}"; "-"]%string).
      repeat split; try assumption. now left.
    + destruct (find _ (map (fun d => os_path.join d (str_of "pdftohtml")) _))
        as [l|] eqn:E2; [|discriminate].
      injection Hinit as <-. apply find_join in E2 as (d & Hd & -> & Hexe).
      exists p, d, (str_of "pdftohtml"),
        (map str_of ["-stdout"; "-i"; "-l"; "1"; "{pdf}"]%string).
      repeat split; try assumption. right. now left.
  - unfold PDFParser.init, PDFParser.converters in Hinit. simpl map in Hinit.
    unfold PDFParser.init_from in Hinit.
    rewrite (which_unset_PATH w (str_of "pdftotext")) in Hinit
      by (assumption || (simpl; intuition discriminate)).
    discriminate.
Qed.

(** ** [BibLookup.get_bibtex] *)

(** X16.  A reply of ASCII bytes is returned as text byte for byte. *)
Theorem get_bibtex_ascii_reply (w : World) (doi : str) (body : bytes) :
  urlopen w (str_of "http://dx.doi.org/" ++ doi) = inr body ->
  ascii_only body = true ->
  BibLookup.get_bibtex w doi = inr (map bcode body).
Proof.
  intros Hu Ha. unfold BibLookup.get_bibtex, BibLookup.url, bind.
  rewrite Hu. unfold decode_utf8. now rewrite (utf8_ascii body Ha).
Qed.

(** ** Splitting the exclude option *)

Lemma split_on_nonempty (sep : ascii) (s : str) : split_on sep s <> [].
Proof.
  destruct s as [|c s]; simpl; [discriminate|].
  destruct (is_char sep c); [discriminate|].
  destruct (split_on sep s); discriminate.
Qed.

Lemma join_with_cons (sep : ascii) (p : str) (ps : list str) :
  ps <> [] -> join_with sep (p :: ps) = p ++ code sep :: join_with sep ps.
Proof. destruct ps; [congruence | reflexivity]. Qed.

(** X17.  Splitting at a separator loses nothing: the pieces, none of which
    holds the separator, joined by the separator give the text back; there
    is always at least one piece (the empty text gives one empty piece). *)
Theorem split_on_join (sep : ascii) (s : str) :
  join_with sep (split_on sep s) = s
  /\ Forall (fun piece => ~ In (code sep) piece) (split_on sep s)
  /\ split_on sep s <> [].
Proof.
  split; [|split; [|apply split_on_nonempty]].
  - induction s as [|c s IH]; [reflexivity|]. cbn [split_on].
    destruct (is_char sep c) eqn:Ec.
    + apply N.eqb_eq in Ec. subst c.
      rewrite join_with_cons by apply split_on_nonempty. now rewrite IH.
    + destruct (split_on sep s) as [|p ps] eqn:E;
        [now apply split_on_nonempty in E|].
      destruct ps as [|q ps].
      * cbn [join_with] in *. now rewrite IH.
      * rewrite join_with_cons in * by discriminate. cbn [app].
        now rewrite IH.
  - induction s as [|c s IH]; [repeat constructor; intros []|].
    cbn [split_on]. destruct (is_char sep c) eqn:Ec.
    + constructor; [intros []|assumption].
    + destruct (split_on sep s) as [|p ps];
        [repeat constructor|].
      * intros [E | []]. subst c. unfold is_char in Ec.
        now rewrite N.eqb_refl in Ec.
      * inversion IH as [|? ? Hp Hps]; subst. constructor; [|assumption].
        intros [E | Hin]; [|contradiction]. subst c. unfold is_char in Ec.
        now rewrite N.eqb_refl in Ec.
Qed.

(** ** The loops of [main] again *)

(** X18.  Gathering raises as soon as some location is a regular file;
    otherwise it returns, location by location in the order given, the paths
    of the files under each directory whose names contain [.pdf], and
    nothing for a location that is neither a file nor a directory. *)
Theorem gather_by_location (w : World) (locs : list str) :
  gather w locs []
  = if existsb (isfile w) locs then inl AttributeError
    else inr (flat_map (pdfs_under w) locs).
Proof.
  change (flat_map (pdfs_under w) locs)
    with ([] ++ flat_map (pdfs_under w) locs).
  generalize (@nil str) as f.
  induction locs as [|loc locs IH]; intros f; simpl.
  - now rewrite app_nil_r.
  - destruct (isfile w loc); simpl; [reflexivity|].
    unfold pdfs_under at 1. destruct (isdir w loc).
    + rewrite IH. destruct (existsb (isfile w) locs); [reflexivity|].
      now rewrite <- app_assoc.
    + rewrite IH. now destruct (existsb (isfile w) locs).
Qed.

Lemma for_each_normal {X : Type} (body : X -> io unit) (l : list X) :
  (forall x, In x l -> snd (body x) = inr tt) ->
  for_each body l = (flat_map (fun x => fst (body x)) l, inr tt).
Proof.
  induction l as [|x l IH]; intros H; simpl; [reflexivity|].
  unfold io_bind. specialize (H x (or_introl eq_refl)) as Hx.
  destruct (body x) as [t r]. simpl in Hx. subst r.
  rewrite IH by (intros y Hy; apply H; now right). reflexivity.
Qed.

Lemma flat_map_same {X Y : Type} (f g : X -> list Y) (l : list X) :
  (forall x, In x l -> f x = g x) -> flat_map f l = flat_map g l.
Proof.
  induction l as [|x l IH]; intros H; simpl; [reflexivity|].
  rewrite (H x (or_introl eq_refl)), IH; [reflexivity|].
  intros y Hy. apply H. now right.
Qed.

(** X19.  When every gathered file is analyzed without an error, the run
    returns normally and shows, file after file in the order gathered, what
    the analysis of each file shows. *)
Theorem main_runs_file_by_file
    (w : World) (args : Args) (parser fs : list str) :
  PDFParser.init w = inr parser ->
  gather w (location args) [] = inr fs ->
  (forall f, In f fs -> snd (analyze w parser args f) = inr tt) ->
  main w args
  = (flat_map (fun f => fst (analyze w parser args f)) fs, inr tt).
Proof.
  intros Hp Hg Hok. rewrite (main_run w args parser fs Hp Hg).
  now apply for_each_normal.
Qed.

Lemma writes_app (t1 t2 : list event) :
  writes (t1 ++ t2) = writes t1 ++ writes t2.
Proof.
  induction t1 as [|[l|x] t1 IH]; simpl; [reflexivity | assumption|].
  now rewrite IH.
Qed.

(** ** The run on streams that can refuse a text *)

Lemma for_each_same {X : Type} (f g : X -> io unit) (l : list X) :
  (forall x, f x = g x) -> for_each f l = for_each g l.
Proof.
  intros H. induction l as [|x l IH]; simpl; [reflexivity|].
  now rewrite H, IH.
Qed.

Lemma main_on_run (s : Streams) (w : World) (args : Args)
      (parser fs : list str) :
  PDFParser.init w = inr parser ->
  gather w (location args) [] = inr fs ->
  main_on s w args = for_each (analyze_on s w parser args) fs.
Proof.
  intros Hp Hg. unfold main_on, io_bind, lift. rewrite Hp, Hg.
  now destruct (for_each (analyze_on s w parser args) fs).
Qed.

(** On streams that take every text the run is the one of [main]. *)
Lemma main_on_accepting (s : Streams) (w : World) (args : Args) (st : stream) :
  output s = Some st ->
  (forall line, print_raises s line = None) ->
  (forall text, write_raises s st text = None) ->
  main_on s w args = main w args.
Proof.
  intros Ho Hp Hw. unfold main_on, main, io_bind, lift.
  destruct (PDFParser.init w) as [e|parser]; [reflexivity|].
  destruct (gather w (location args) []) as [e|fs]; [reflexivity|].
  rewrite (for_each_same (analyze_on s w parser args)
             (analyze w parser args)); [reflexivity|].
  intros f. unfold analyze_on, analyze, print_on, output_write, io_bind, lift.
  rewrite Ho, !Hp.
  destruct (PDFParser.get_doi w parser f) as [e|[[|c d]|]]; try reflexivity.
  cbn [print fst snd]. rewrite ?Hp.
  destruct (BibLookup.get_bibtex w (c :: d)) as [e|entry]; [reflexivity|].
  destruct (BibEntry.init (unicode_alnum w) entry) as [e|b]; [reflexivity|].
  destruct (exclude_split (exclude args)) as [e|ex]; [reflexivity|].
  now rewrite ?Hw, ?Hp.
Qed.

(** The analysis of a file without a DOI, print by print. *)
Lemma analyze_on_no_doi (s : Streams) (w : World) (args : Args)
      (parser : list str) (file : str) :
  PDFParser.get_doi w parser file = inr None ->
  analyze_on s w parser args file
  = match print_raises s (str_of "Analyzing " ++ file ++ str_of "...") with
    | Some e => ([], inl e)
    | None =>
        match print_raises s (str_of "  !! No DOI found!") with
        | Some e =>
            ([Print (str_of "Analyzing " ++ file ++ str_of "...")], inl e)
        | None => (no_doi_lines file, inr tt)
        end
    end.
Proof.
  intros H. unfold analyze_on, io_bind, lift, print_on, print. rewrite H.
  destruct (print_raises s (str_of "Analyzing " ++ file ++ str_of "..."));
    [reflexivity|].
  now destruct (print_raises s (str_of "  !! No DOI found!")).
Qed.

Lemma prints_all_cons (s : Streams) (line : str) (t : list event) :
  prints_all s (Print line :: t)
  <-> print_raises s line = None /\ prints_all s t.
Proof.
  unfold prints_all. split.
  - intros H. split; [apply H; now left|]. intros l Hl. apply H. now right.
  - intros [H1 H2] l [[= <-] | Hl]; [exact H1 | now apply H2].
Qed.

Lemma for_each_no_doi (s : Streams) (w : World) (args : Args)
      (parser fs : list str) :
  (forall f, In f fs -> PDFParser.get_doi w parser f = inr None) ->
  (exists rest,
     flat_map no_doi_lines fs
     = fst (for_each (analyze_on s w parser args) fs) ++ rest)
  /\ (for_each (analyze_on s w parser args) fs
      = (flat_map no_doi_lines fs, inr tt)
      <-> prints_all s (flat_map no_doi_lines fs)).
Proof.
  induction fs as [|f fs IH]; intros Hnone.
  - split; [now exists []|]. split; [intros _ line []| reflexivity].
  - destruct IH as [(rest & Hrest) Hiff];
      [intros x Hx; apply Hnone; now right|].
    cbn [for_each flat_map]. unfold io_bind.
    rewrite (analyze_on_no_doi s w args parser f
               (Hnone f (or_introl eq_refl))).
    unfold no_doi_lines in *. cbn [app].
    rewrite !prints_all_cons.
    destruct (print_raises s (str_of "Analyzing " ++ f ++ str_of "..."))
      as [e1|].
    { split; [eexists; reflexivity|].
      split; [discriminate | intros [[=] _]]. }
    destruct (print_raises s (str_of "  !! No DOI found!")) as [e2|].
    { split; [eexists; reflexivity|].
      split; [discriminate | intros [_ [[=] _]]]. }
    destruct (for_each (analyze_on s w parser args) fs) as [t r].
    cbn [fst app] in *.
    split; [exists rest; now rewrite Hrest|].
    rewrite <- Hiff. split.
    + intros [= -> ->]. auto.
    + intros (_ & _ & [= -> ->]). reflexivity.
Qed.

(** X20.  When no gathered file has a DOI, the run calls [print] only, for
    the two lines of each file in turn, and never [args.output.write]: what
    it prints is a beginning of these lines, and it prints them all and
    returns normally exactly when every one of them is a line that [print]
    takes (otherwise the run ends with the exception of the first [print]
    that raises). *)
Theorem main_without_any_doi
    (s : Streams) (w : World) (args : Args) (parser fs : list str) :
  PDFParser.init w = inr parser ->
  gather w (location args) [] = inr fs ->
  (forall f, In f fs -> PDFParser.get_doi w parser f = inr None) ->
  (exists rest,
     flat_map no_doi_lines fs = fst (main_on s w args) ++ rest)
  /\ writes (fst (main_on s w args)) = []
  /\ (main_on s w args = (flat_map no_doi_lines fs, inr tt)
      <-> prints_all s (flat_map no_doi_lines fs)).
Proof.
  intros Hp Hg Hnone. rewrite (main_on_run s w args parser fs Hp Hg).
  destruct (for_each_no_doi s w args parser fs Hnone) as [(rest & E) Hiff].
  split; [now exists rest|]. split; [|exact Hiff].
  assert (writes (flat_map no_doi_lines fs) = []) as Hw.
  { clear. induction fs as [|f fs IH]; [reflexivity | exact IH]. }
  rewrite E, writes_app in Hw. now apply app_eq_nil in Hw.
Qed.




(** ** Text after the record *)

Section Following.

Context {A : Type}.
Variable newline : A -> bool.

Lemma many1_app_stop g (p : A -> bool) (s x : list A) :
  stops p x -> many1 g p (s ++ x) = map (fun r => r ++ x) (many1 g p s).
Proof.
  intros Hx. induction s as [|c s IH]; simpl.
  - now apply many1_stops.
  - destruct (p c); [|reflexivity]. rewrite IH.
    destruct g; [now rewrite map_app | reflexivity].
Qed.

Lemma times_app_stop n (p : A -> bool) (s x : list A) :
  stops p x ->
  times (S n) p (s ++ x) = option_map (fun r => r ++ x) (times (S n) p s).
Proof.
  intros Hx. revert s. induction n as [|n IH]; intros s.
  - destruct s as [|c s]; simpl.
    + destruct x as [|c x]; [reflexivity|]. simpl in Hx. now rewrite Hx.
    + now destruct (p c).
  - destruct s as [|c s].
    + destruct x as [|c x]; [reflexivity|]. simpl in *. now rewrite Hx.
    + change (times (S (S n)) p ((c :: s) ++ x))
        with (if p c then times (S n) p (s ++ x) else None).
      change (times (S (S n)) p (c :: s))
        with (if p c then times (S n) p s else None).
      destruct (p c); [apply IH | reflexivity].
Qed.

Lemma run_shorter (r : regex) s caps rest caps' :
  In (rest, caps') (run newline r s caps) -> length rest <= length s.
Proof.
  revert s caps rest caps'.
  induction r as [p | r1 IH1 r2 IH2 | r1 IH1 r2 IH2 | g p | n p | name r IH | ];
    intros s caps rest caps' H.
  - apply run_Class_in in H as (c & -> & _). simpl. lia.
  - apply run_Seq_in in H as (s1 & c1 & H1 & H2).
    apply IH1 in H1. apply IH2 in H2. lia.
  - apply run_Alt_in in H as [H | H]; eauto.
  - apply run_Many1_in in H as (_ & w & _ & _ & ->). rewrite length_app. lia.
  - apply run_Times_in in H as (_ & w & _ & _ & ->). rewrite length_app. lia.
  - apply run_Group_in in H as (c1 & H & _). eauto.
  - apply run_End_in in H as (-> & _). lia.
Qed.

Lemma taken_app_tail (s rest x : list A) :
  length rest <= length s -> taken (s ++ x) (rest ++ x) = taken s rest.
Proof.
  intros H. unfold taken. rewrite !length_app.
  replace (length s + length x - (length rest + length x))
    with (length s - length rest) by lia.
  rewrite firstn_app.
  replace (length s - length rest - length s) with 0 by lia.
  simpl. apply app_nil_r.
Qed.

Lemma map_flat_map {X Y Z : Type} (g : Y -> Z) (f : X -> list Y) (l : list X) :
  map g (flat_map f l) = flat_map (fun x => map g (f x)) l.
Proof.
  induction l as [|x l IH]; simpl; [reflexivity|]. now rewrite map_app, IH.
Qed.

(** A match never reaches into a text that starts with a character the
    pattern rejects. *)
Lemma run_app_rejected (r : regex) (c : A) (more : list A) :
  rejects r c ->
  forall s caps,
    run newline r (s ++ c :: more) caps
    = map (fun y => (fst y ++ c :: more, snd y)) (run newline r s caps).
Proof.
  induction r as [p | r1 IH1 r2 IH2 | r1 IH1 r2 IH2 | g p | n p | name r IH | ];
    simpl rejects; intros Hr s caps.
  - destruct s as [|a s]; simpl; [now rewrite Hr|]. now destruct (p a).
  - destruct Hr as [Hr1 Hr2]. cbn [run].
    rewrite (IH1 Hr1), flat_map_map, map_flat_map.
    apply flat_map_ext. intros y. apply (IH2 Hr2).
  - destruct Hr as [Hr1 Hr2]. cbn [run].
    now rewrite (IH1 Hr1), (IH2 Hr2), map_app.
  - cbn [run]. rewrite many1_app_stop by exact Hr. now rewrite !map_map.
  - cbn [run]. destruct n as [|n]; [reflexivity|].
    rewrite times_app_stop by exact Hr.
    now destruct (times (S n) p s).
  - cbn [run]. rewrite (IH Hr), !map_map. apply map_ext_in.
    intros [rest c1] Hin. simpl. do 2 f_equal. f_equal.
    apply taken_app_tail. eapply run_shorter. exact Hin.
  - destruct Hr.
Qed.

Lemma match_at_app_rejected (r : regex) (c : A) (more s : list A) :
  rejects r c ->
  match_at newline r (s ++ c :: more) = match_at newline r s.
Proof.
  intros Hr. rewrite !match_at_run, (run_app_rejected r c more Hr).
  destruct (run newline r s []) as [|[rest caps] l] eqn:E; [reflexivity|].
  simpl. do 2 f_equal. apply taken_app_tail.
  apply (run_shorter r s [] rest caps). rewrite E. now left.
Qed.

Lemma search_app_rejected (r : regex) (c : A) (more s : list A) m :
  rejects r c ->
  search newline r s = Some m -> search newline r (s ++ c :: more) = Some m.
Proof.
  intros Hr. induction s as [|a s IH]; intros H.
  - apply search_here. rewrite (match_at_app_rejected r c more [] Hr).
    simpl in H. now destruct (match_at newline r []).
  - change ((a :: s) ++ c :: more) with (a :: (s ++ c :: more)).
    cbn [search] in H |- *.
    change (a :: s ++ c :: more) with ((a :: s) ++ c :: more).
    rewrite (match_at_app_rejected r c more (a :: s) Hr).
    destruct (match_at newline r (a :: s)); [assumption | now apply IH].
Qed.

End Following.

Lemma parts_rejects_newline (alnum : N -> bool) :
  rejects (BibEntry.parts alnum) (code "010").
Proof. repeat split. Qed.

(** X22.  Text that follows a line feed after a text that parses changes
    nothing: the same record is built (so a reply that ends with a line feed
    parses like the reply without it). *)
Theorem init_ignores_following_lines
    (alnum : N -> bool) (entry more : str) (b : BibEntry.t) :
  BibEntry.init alnum entry = inr b ->
  BibEntry.init alnum (entry ++ code "010" :: more) = inr b.
Proof.
  unfold BibEntry.init.
  destruct (search str_newline (BibEntry.parts alnum) entry) as [m|] eqn:Hs;
    [|discriminate].
  now rewrite (search_app_rejected str_newline _ (code "010") more entry m
                 (parts_rejects_newline alnum) Hs).
Qed.

(** X23.  When no converter is installed, the run ends with the exception
    of the construction before anything is gathered, printed or written. *)
Theorem main_stops_without_converter (w : World) (args : Args) (p : str) :
  environ_PATH w = Some p ->
  (forall d, In d (search_dirs p) ->
     PDFParser.is_exe w (os_path.join d (str_of "pdftotext")) = false
     /\ PDFParser.is_exe w (os_path.join d (str_of "pdftohtml")) = false) ->
  main w args = ([], inl BareException).
Proof.
  intros Hp Hnone. apply (init_nothing_found w p Hp) in Hnone.
  unfold main, io_bind, lift. now rewrite Hnone.
Qed.

(** ** [-o] without a name *)

(** What an analysis does when [args.output] is [None]. *)
Lemma analyze_on_no_output (s : Streams) (w : World) (args : Args)
      (parser : list str) (file : str) :
  output s = None ->
  writes (fst (analyze_on s w parser args file)) = []
  /\ (forall doi entry b,
        PDFParser.get_doi w parser file = inr (Some doi) -> doi <> [] ->
        BibLookup.get_bibtex w doi = inr entry ->
        BibEntry.init (unicode_alnum w) entry = inr b ->
        exists e, snd (analyze_on s w parser args file) = inl e).
Proof.
  intros Ho.
  unfold analyze_on, io_bind, lift, print_on, output_write, print, write.
  rewrite Ho.
  destruct (print_raises s (str_of "Analyzing " ++ file ++ str_of "..."))
    as [e1|]; [split; [reflexivity | intros; eexists; reflexivity]|].
  destruct (PDFParser.get_doi w parser file) as [e2|[[|c d]|]] eqn:Hd.
  { split; [reflexivity | intros doi entry b [=]]. }
  { destruct (print_raises s (str_of "  !! No DOI found!"));
      (split; [reflexivity | intros doi entry b [= <-] Hne; now destruct Hne]). }
  2: { destruct (print_raises s (str_of "  !! No DOI found!"));
         (split; [reflexivity | intros doi entry b [=]]). }
  destruct (print_raises s (str_of "  .. Found DOI: " ++ c :: d)) as [e3|];
    [split; [reflexivity | intros; eexists; reflexivity]|].
  destruct (print_raises s (str_of "  .. Fetching Metadata...")) as [e4|];
    [split; [reflexivity | intros; eexists; reflexivity]|].
  destruct (BibLookup.get_bibtex w (c :: d)) as [e5|entry] eqn:Hf;
    [split; [reflexivity | intros; eexists; reflexivity]|].
  destruct (BibEntry.init (unicode_alnum w) entry) as [e6|b] eqn:Hb;
    (split; [reflexivity | intros; eexists; reflexivity]).
Qed.

Lemma for_each_writes_nil {X : Type} (body : X -> io unit) (l : list X) :
  (forall x, writes (fst (body x)) = []) ->
  writes (fst (for_each body l)) = [].
Proof.
  intros H. induction l as [|x l IH]; [reflexivity|].
  cbn [for_each]. unfold io_bind. specialize (H x).
  destruct (body x) as [t [e|u]]; [exact H|].
  destruct (for_each body l) as [t' r]. cbn [fst] in *.
  now rewrite writes_app, H, IH.
Qed.

(** X24.  After [-o] without a name [args.output] is [None]: nothing is
    ever written, and a run in which the DOI of some gathered file is found,
    its entry fetched and parsed ends with an exception (the attribute error
    of [None.write], unless an earlier step raised). *)
Theorem no_output_writes_nothing (s : Streams) (w : World) (args : Args) :
  output s = None ->
  writes (fst (main_on s w args)) = []
  /\ (forall parser fs file doi entry b,
        PDFParser.init w = inr parser ->
        gather w (location args) [] = inr fs -> In file fs ->
        PDFParser.get_doi w parser file = inr (Some doi) -> doi <> [] ->
        BibLookup.get_bibtex w doi = inr entry ->
        BibEntry.init (unicode_alnum w) entry = inr b ->
        exists e, snd (main_on s w args) = inl e).
Proof.
  intros Ho. split.
  - unfold main_on, io_bind, lift.
    destruct (PDFParser.init w) as [e|parser]; [reflexivity|].
    destruct (gather w (location args) []) as [e|fs]; [reflexivity|].
    destruct (for_each (analyze_on s w parser args) fs) as [t r] eqn:E.
    change (writes (fst (t, r)) = []). rewrite <- E.
    apply for_each_writes_nil. intros f.
    now apply analyze_on_no_output.
  - intros parser fs file doi entry b Hp Hg Hin Hd Hne Hf Hb.
    rewrite (main_on_run s w args parser fs Hp Hg).
    apply in_split in Hin as (before & after & ->).
    destruct (proj2 (analyze_on_no_output s w args parser file Ho)
                doi entry b Hd Hne Hf Hb) as [e He].
    exact (for_each_raises_somewhere _ before after file e He).
Qed.

(** * The further properties at sample inputs *)

Lemma format_exclusion_by_membership_witness :
  BibEntry.format sample_record [str_of "year"; str_of "url"; str_of "year"]
  = BibEntry.format sample_record [str_of "year"].
Proof.
  apply (format_exclusion_by_membership sample_record).
  intros k Hk. simpl in Hk |- *.
  destruct Hk as [<- | [<- | []]]; split; intros H;
    try (now left); decompose [or] H; try discriminate; try contradiction;
    now left.
Defined.

Lemma format_new_field_last_witness :
  BibEntry.format
    (BibEntry.add_arg sample_record (str_of "file") (str_of "lib/a.pdf")) []
  = BibEntry.header sample_record
    ++ concat (map BibEntry.field_line (BibEntry.args sample_record))
    ++ BibEntry.field_line (str_of "file", str_of "lib/a.pdf")
    ++ str_of (String "010" "}").
Proof.
  apply (format_new_field_last sample_record [] (str_of "file")
           (str_of "lib/a.pdf")).
  - reflexivity.
  - intros [].
Defined.

Lemma format_excluded_field_unseen_witness :
  BibEntry.format
    (BibEntry.add_arg sample_record (str_of "file") (str_of "lib/a.pdf"))
    [str_of "file"]
  = BibEntry.format sample_record [str_of "file"].
Proof.
  apply (format_excluded_field_unseen sample_record [str_of "file"]).
  now left.
Defined.

Lemma parsed_record_shape_witness :
  field_name latin1_alnum (BibEntry.type sample_record)
  /\ BibEntry.id sample_record <> []
  /\ forallb (BibEntry.word_hyphen_space latin1_alnum)
             (BibEntry.id sample_record) = true
  /\ NoDup (map fst (BibEntry.args sample_record))
  /\ (forall k v, In (k, v) (BibEntry.args sample_record) ->
        field_name latin1_alnum k /\ v <> []
        /\ forallb BibEntry.any v = true).
Proof.
  apply (parsed_record_shape latin1_alnum sample_entry sample_record).
  reflexivity.
Defined.

Lemma init_last_value_kept_witness :
  exists b,
    BibEntry.init latin1_alnum
      (record_text (str_of "article") (str_of "smith2020") twice_fields)
    = inr b
    /\ (forall k, dict_get k (BibEntry.args b) = last_binding k twice_fields)
    /\ (NoDup (map fst twice_fields) -> BibEntry.args b = twice_fields).
Proof.
  apply (init_last_value_kept latin1_alnum).
  - split; [discriminate | reflexivity].
  - discriminate.
  - reflexivity.
  - discriminate.
  - intros k v Hin. simpl in Hin.
    destruct Hin as [[= <- <-] | [[= <- <-] | [[= <- <-] | []]]];
      (split; [split; [discriminate | reflexivity]
              | split; [discriminate | split; reflexivity]]).
Defined.

Lemma find_doi_returns_a_token_witness :
  exists pre t post,
    sample_page = pre ++ t ++ post /\ doi_token t /\ ascii_only t = true
    /\ str_of "10.1000/xyz123" = map bcode t
    /\ 9 <= length (str_of "10.1000/xyz123").
Proof.
  apply (find_doi_returns_a_token sample_page (str_of "10.1000/xyz123")).
  reflexivity.
Defined.

Lemma find_doi_raises_only_undecodable_witness :
  UnicodeDecodeError = UnicodeDecodeError
  /\ ascii_only undecodable_page = false.
Proof.
  apply (find_doi_raises_only_undecodable undecodable_page UnicodeDecodeError).
  reflexivity.
Defined.

Lemma find_doi_leftmost_longest_witness :
  exists pre t post,
    sample_page = pre ++ t ++ post /\ doi_token t
    /\ stops PDFParser.suffix_byte post
    /\ (forall pre' t' post', sample_page = pre' ++ t' ++ post' ->
          doi_token t' -> length pre <= length pre')
    /\ PDFParser.find_doi sample_page
       = bind (decode_utf8 t) (fun doi => inr (Some doi)).
Proof.
  apply (find_doi_leftmost_longest sample_page).
  exists (bytes_of "see doi:"), (bytes_of "10.1000/xyz123"),
    (bytes_of " and 10.2000/abc").
  split; [reflexivity|].
  exists (byte_of_ascii "."), (bytes_of "1000"), (bytes_of "xyz123").
  repeat split; try reflexivity. discriminate.
Defined.

Lemma which_with_directory_witness :
  PDFParser.which (sample_world service_up) (str_of "/usr/bin/pdftotext")
  = inr (if PDFParser.is_exe (sample_world service_up)
              (str_of "/usr/bin/pdftotext")
         then Some (str_of "/usr/bin/pdftotext") else None).
Proof.
  apply (which_with_directory (sample_world service_up)). simpl. auto.
Defined.

Lemma init_without_PATH_witness :
  PDFParser.init no_path_world = inl KeyError.
Proof. apply (init_without_PATH no_path_world). reflexivity. Defined.

Lemma init_no_converter_iff_witness :
  PDFParser.init bare_world = inl BareException.
Proof.
  apply (proj2 (init_no_converter_iff bare_world (str_of "/opt/empty")
                  eq_refl)).
  intros d Hd. split; reflexivity.
Defined.

Lemma init_binds_an_executable_witness :
  exists p d program arguments,
    environ_PATH (sample_world service_up) = Some p
    /\ In d (search_dirs p)
    /\ In (program :: arguments) PDFParser.converters
    /\ sample_parser = os_path.join d program :: arguments
    /\ PDFParser.is_exe (sample_world service_up) (os_path.join d program)
       = true.
Proof.
  apply (init_binds_an_executable (sample_world service_up) sample_parser).
  reflexivity.
Defined.

Lemma get_bibtex_ascii_reply_witness :
  BibLookup.get_bibtex (sample_world service_up) (str_of "10.1000/xyz123")
  = inr (map bcode sample_reply).
Proof.
  apply (get_bibtex_ascii_reply (sample_world service_up)); reflexivity.
Defined.

Lemma main_runs_file_by_file_witness :
  main (sample_world service_up) sample_args
  = (flat_map (fun f => fst (analyze (sample_world service_up) sample_parser
                               sample_args f))
              [str_of "lib/a.pdf"; str_of "lib/b.pdf"], inr tt).
Proof.
  apply (main_runs_file_by_file (sample_world service_up) sample_args
           sample_parser [str_of "lib/a.pdf"; str_of "lib/b.pdf"]).
  - reflexivity.
  - reflexivity.
  - intros f [<- | [<- | []]]; reflexivity.
Defined.

Lemma main_without_any_doi_witness :
  main_on ascii_stdout plain_world plain_args
  = (flat_map no_doi_lines [str_of "docs/x.pdf"; str_of "docs/y.pdf"], inr tt)
  /\ writes (fst (main_on ascii_stdout plain_world plain_args)) = [].
Proof.
  destruct (main_without_any_doi ascii_stdout plain_world plain_args
              (map str_of
                   ["/usr/bin/pdftotext"; "-l"; "1"; "{pdf}"; "-"]%string)
              [str_of "docs/x.pdf"; str_of "docs/y.pdf"])
    as (_ & Hwrites & Hall).
  - reflexivity.
  - reflexivity.
  - intros f [<- | [<- | []]]; reflexivity.
  - split; [|exact Hwrites]. apply Hall. intros line Hline.
    cbn in Hline.
    destruct Hline as [[= <-] | [[= <-] | [[= <-] | [[= <-] | []]]]];
      reflexivity.
Defined.

Lemma init_ignores_following_lines_witness :
  BibEntry.init latin1_alnum sample_entry_line = inr sample_record.
Proof.
  apply (init_ignores_following_lines latin1_alnum sample_entry []
           sample_record).
  reflexivity.
Defined.

Lemma main_stops_without_converter_witness :
  main bare_world plain_args = ([], inl BareException).
Proof.
  apply (main_stops_without_converter bare_world plain_args
           (str_of "/opt/empty")).
  - reflexivity.
  - intros d Hd. split; reflexivity.
Defined.

Lemma no_output_writes_nothing_witness :
  writes (fst (main_on no_output (sample_world service_up) sample_args)) = []
  /\ exists e,
       snd (main_on no_output (sample_world service_up) sample_args) = inl e.
Proof.
  destruct (no_output_writes_nothing no_output (sample_world service_up)
              sample_args eq_refl) as [Hwrites Hraises].
  split; [exact Hwrites|].
  apply (Hraises sample_parser [str_of "lib/a.pdf"; str_of "lib/b.pdf"]
           (str_of "lib/a.pdf") (str_of "10.1000/xyz123") sample_entry
           sample_record);
    [reflexivity | reflexivity | now left | reflexivity | discriminate
    | reflexivity | reflexivity].
Defined.
